(** * Audio pipeline of the voice assistant: codec, PCM frames, resampler,
      playback scheduling and ducking.

    Shallow embedding of [src/utils/audioUtils.ts] and of the audio part of
    the [onmessage] / [onaudioprocess] callbacks of the [App] component.

    Conventions.
    - A [Uint8Array] is a [list byte]; a JavaScript string is the list of
      its UTF-16 code units ([N]).
    - A thrown exception is [None] (or the [inl] of a sum when the kind of
      exception matters).
    - A sample is a finite rational, an infinity or NaN ([Float.float]);
      rates and clock readings are exact rationals ([Q]).  The products
      computed by [createPcmBlob] and the quotients computed by
      [decodeAudioData] are exact in binary64 for every Float32 input, so
      nothing is lost there; the resampler's arithmetic and the playback
      clock are idealised (no rounding). *)

From Stdlib Require Import ZArith NArith QArith Qround Qabs Lqa Lia Ascii String.
From Stdlib.Strings Require Import Byte.
From stdpp Require Import base list gmap.

Ltac div_lia := zify; Z.to_euclidean_division_equations; lia.

(* ===================================================================== *)
(** ** Host values: bytes, strings, base64                                *)
(* ===================================================================== *)

Module Host.
#[local] Open Scope N_scope.

Abbreviation code_unit := N (only parsing).
Abbreviation jsstring := (list N) (only parsing).
Abbreviation Uint8Array := (list byte) (only parsing).

(** [String.fromCharCode.apply(null, chunk)]: one code unit per byte. *)
Definition fromCharCode (chunk : Uint8Array) : jsstring := map Byte.to_N chunk.

(** [bytes.subarray(i, j)] for [i <= j]; both ends are clamped to the length. *)
Definition subarray (bytes : Uint8Array) (i j : nat) : Uint8Array :=
  firstn (j - i) (skipn i bytes).

(** The loop [for (i ...) a[i] = f(i)] over the indices [idxs]: a store
    past the end of a typed array is dropped, as [<[i:=_]>] does. *)
Definition store_all {A} (f : nat → A) (idxs : list nat) (a : list A) : list A :=
  fold_left (λ a i, <[i := f i]> a) idxs a.

(** Storing a number into a [Uint8Array] slot keeps it modulo 256. *)
Definition ToUint8 (c : N) : byte :=
  match Byte.of_N (c mod 256) with Some b => b | None => x00 end.

Definition alphabet : string :=
  "ABCDEFGHIJKLMNOPQRSTUVWXYZabcdefghijklmnopqrstuvwxyz0123456789+/".

Definition pad : code_unit := 61.

Definition b64char (s : N) : code_unit :=
  match String.get (N.to_nat s) alphabet with
  | Some a => N_of_ascii a
  | None => pad
  end.

Definition b64index (c : code_unit) : option N :=
  if (65 <=? c) && (c <=? 90) then Some (c - 65)
  else if (97 <=? c) && (c <=? 122) then Some (c - 71)
  else if (48 <=? c) && (c <=? 57) then Some (c + 4)
  else if c =? 43 then Some 62
  else if c =? 47 then Some 63
  else None.

(** RFC 4648 encoding of a sequence of octets, three octets at a time. *)
Fixpoint b64encode (s : list N) : jsstring :=
  match s with
  | a :: b :: c :: rest =>
      let n := a * 65536 + b * 256 + c in
      b64char (n / 262144) :: b64char ((n / 4096) mod 64)
        :: b64char ((n / 64) mod 64) :: b64char (n mod 64) :: b64encode rest
  | [a; b] =>
      let n := a * 65536 + b * 256 in
      [b64char (n / 262144); b64char ((n / 4096) mod 64);
       b64char ((n / 64) mod 64); pad]
  | [a] =>
      let n := a * 65536 in
      [b64char (n / 262144); b64char ((n / 4096) mod 64); pad; pad]
  | [] => []
  end.

(** The sextets of that encoding before they are mapped to characters,
    and the padding that follows them. *)
Fixpoint groups (s : list N) : list N :=
  match s with
  | a :: b :: c :: rest =>
      let n := a * 65536 + b * 256 + c in
      n / 262144 :: (n / 4096) mod 64 :: (n / 64) mod 64 :: n mod 64
        :: groups rest
  | [a; b] =>
      let n := a * 65536 + b * 256 in
      [n / 262144; (n / 4096) mod 64; (n / 64) mod 64]
  | [a] =>
      let n := a * 65536 in [n / 262144; (n / 4096) mod 64]
  | [] => []
  end.

Fixpoint padding (s : list N) : jsstring :=
  match s with
  | _ :: _ :: _ :: rest => padding rest
  | [_; _] => [pad]
  | [_] => [pad; pad]
  | [] => []
  end.

(** [btoa]: throws InvalidCharacterError on a code unit above 0xFF. *)
Definition btoa (s : jsstring) : option jsstring :=
  if forallb (fun c => c <=? 255) s then Some (b64encode s) else None.

Definition is_ascii_whitespace (c : code_unit) : bool :=
  (c =? 9) || (c =? 10) || (c =? 12) || (c =? 13) || (c =? 32).

Definition strip_whitespace (data : jsstring) : jsstring :=
  List.filter (fun c => negb (is_ascii_whitespace c)) data.

(** "If data ends with one or two U+003D (=) code points, remove them." *)
Definition strip_padding (data : jsstring) : jsstring :=
  match rev data with
  | c1 :: r1 =>
      if c1 =? pad then
        match r1 with
        | c2 :: r2 => if c2 =? pad then rev r2 else rev r1
        | [] => rev r1
        end
      else data
  | [] => data
  end.

Fixpoint sextets (data : jsstring) : option (list N) :=
  match data with
  | [] => Some []
  | c :: rest =>
      match b64index c, sextets rest with
      | Some v, Some vs => Some (v :: vs)
      | _, _ => None
      end
  end.

(** Bits are consumed 24 at a time; a tail of 12 or 18 bits loses its
    last 4 or 2 bits. *)
Fixpoint decode_sextets (l : list N) : list N :=
  match l with
  | a :: b :: c :: d :: rest =>
      let n := ((a * 64 + b) * 64 + c) * 64 + d in
      n / 65536 :: (n / 256) mod 256 :: n mod 256 :: decode_sextets rest
  | [a; b; c] =>
      let n := ((a * 64 + b) * 64 + c) / 4 in
      [n / 256; n mod 256]
  | [a; b] => [(a * 64 + b) / 16]
  | _ => []
  end.

(** [atob]: the forgiving-base64 decode of the HTML standard; throws
    InvalidCharacterError where the decode fails. *)
Definition atob (data : jsstring) : option jsstring :=
  let data := strip_whitespace data in
  let data :=
    if (N.of_nat (length data) mod 4 =? 0) then strip_padding data else data in
  if (N.of_nat (length data) mod 4 =? 1) then None
  else match sextets data with
       | Some vs => Some (decode_sextets vs)
       | None => None
       end.

End Host.

(* ===================================================================== *)
(** ** Codec: [encodeAudio] and [decodeAudio]                             *)
(* ===================================================================== *)

Module Codec.
Import Host.

Definition chunkSize : nat := N.to_nat 0x8000.

(** The [for (i = 0; i < bytes.length; i += chunk)] loop; [fuel] bounds the
    number of iterations. *)
Fixpoint encode_loop (chunk fuel : nat) (bytes : Uint8Array) (i : nat)
    (binary : jsstring) : jsstring :=
  match fuel with
  | O => binary
  | S fuel' =>
      if (i <? length bytes)%nat
      then encode_loop chunk fuel' bytes (i + chunk)
             (binary ++ fromCharCode (subarray bytes i (i + chunk)))
      else binary
  end.

(** Each iteration advances [i] by [chunkSize >= 1], so [length bytes]
    iterations always reach the end of the buffer. *)
Definition encodeAudio (bytes : Uint8Array) : option jsstring :=
  btoa (encode_loop chunkSize (length bytes) bytes 0 []).

(** The encoding with no chunking: one [fromCharCode] call on the buffer. *)
Definition encodeAudio_unchunked (bytes : Uint8Array) : option jsstring :=
  btoa (fromCharCode bytes).

Definition decodeAudio (base64 : jsstring) : option Uint8Array :=
  match atob base64 with
  | Some binaryString => Some (map ToUint8 binaryString)
  | None => None
  end.

End Codec.

(* ===================================================================== *)
(** ** Numbers held by a Float32Array                                     *)
(* ===================================================================== *)

Module Float.
#[local] Open Scope Q_scope.

(** A finite value, an infinity or NaN.  Signed zeros are identified. *)
Inductive float := Fin (q : Q) | PInf | NInf | NaN.

(** JavaScript [a < b]: false as soon as one side is NaN. *)
Definition flt (a b : float) : bool :=
  match a, b with
  | NaN, _ | _, NaN => false
  | Fin x, Fin y => if Qlt_le_dec x y then true else false
  | Fin _, PInf => true
  | Fin _, NInf => false
  | PInf, _ => false
  | NInf, NInf => false
  | NInf, _ => true
  end.

Definition Math_min (a b : float) : float :=
  match a, b with
  | NaN, _ | _, NaN => NaN
  | _, _ => if flt b a then b else a
  end.

Definition Math_max (a b : float) : float :=
  match a, b with
  | NaN, _ | _, NaN => NaN
  | _, _ => if flt a b then b else a
  end.

Definition fneg (a : float) : float :=
  match a with
  | Fin x => Fin (- x)
  | PInf => NInf
  | NInf => PInf
  | NaN => NaN
  end.

Definition inf_times (pos : bool) (y : Q) : float :=
  if Qeq_bool y 0 then NaN
  else if Qlt_le_dec 0 y then (if pos then PInf else NInf)
  else (if pos then NInf else PInf).

Definition fmul (a b : float) : float :=
  match a, b with
  | NaN, _ | _, NaN => NaN
  | Fin x, Fin y => Fin (x * y)
  | PInf, Fin y | Fin y, PInf => inf_times true y
  | NInf, Fin y | Fin y, NInf => inf_times false y
  | PInf, PInf | NInf, NInf => PInf
  | PInf, NInf | NInf, PInf => NInf
  end.

Definition fadd (a b : float) : float :=
  match a, b with
  | NaN, _ | _, NaN => NaN
  | Fin x, Fin y => Fin (x + y)
  | PInf, NInf | NInf, PInf => NaN
  | PInf, _ | _, PInf => PInf
  | NInf, _ | _, NInf => NInf
  end.

(** Integer part, towards zero. *)
Definition Qtrunc (x : Q) : Z := Z.quot (Qnum x) (Zpos (Qden x)).

Definition wrap16 (n : Z) : Z :=
  let m := (n mod 65536)%Z in
  if (m <? 32768)%Z then m else (m - 65536)%Z.

(** The conversion applied by a store into an [Int16Array]: NaN and the
    infinities give 0, a finite value is truncated and wrapped. *)
Definition ToInt16 (x : float) : Z :=
  match x with
  | Fin q => wrap16 (Qtrunc q)
  | _ => 0%Z
  end.

(** [Math.round]: the nearest integer, halves going up. *)
Definition Math_round (x : Q) : Z := Qfloor (x + (1 # 2)).

End Float.

(* ===================================================================== *)
(** ** PCM frames: [createPcmBlob] and [decodeAudioData]                  *)
(* ===================================================================== *)

Module Pcm.
Import Host Codec Float.

Abbreviation Float32Array := (list float) (only parsing).
Abbreviation Int16Array := (list Z) (only parsing).

Inductive exn := RangeError | NotSupportedError.

Record Blob := { blob_data : jsstring; mimeType : string }.

Definition byte_of_Z (z : Z) : byte :=
  match Byte.of_N (Z.to_N z) with Some b => b | None => x00 end.

(** The two bytes of a 16-bit element in its buffer (little-endian). *)
Definition int16_bytes (v : Z) : list byte :=
  let u := (v mod 65536)%Z in
  [byte_of_Z (u mod 256); byte_of_Z (u / 256)].

(** [new Uint8Array(int16.buffer)] *)
Definition buffer_of_Int16Array (a : Int16Array) : Uint8Array :=
  flat_map int16_bytes a.

Definition toPcm16_sample (x : float) : Z :=
  let s := Math_max (Fin (-1)) (Math_min (Fin 1) x) in
  ToInt16 (if flt s (Fin 0) then fmul s (Fin 32768) else fmul s (Fin 32767)).

Definition createPcmBlob (data : Float32Array) : option Blob :=
  let int16 := map toPcm16_sample data in
  match encodeAudio (buffer_of_Int16Array int16) with
  | Some d => Some {| blob_data := d; mimeType := "audio/pcm;rate=16000" |}
  | None => None
  end.

Definition int16_of_bytes (lo hi : byte) : Z :=
  wrap16 (Z.of_N (Byte.to_N lo) + 256 * Z.of_N (Byte.to_N hi)).

Fixpoint int16_elements (buffer : Uint8Array) : Int16Array :=
  match buffer with
  | lo :: hi :: rest => int16_of_bytes lo hi :: int16_elements rest
  | _ => []
  end.

(** [new Int16Array(buffer)]: RangeError unless the byte length is even. *)
Definition new_Int16Array (buffer : Uint8Array) : exn + Int16Array :=
  if Nat.even (length buffer) then inr (int16_elements buffer)
  else inl RangeError.

Record AudioBuffer := {
  numberOfChannels : nat;
  buf_length : nat;
  sampleRate : Q;
  channelData : list Float32Array
}.

Definition duration (b : AudioBuffer) : Q :=
  (inject_Z (Z.of_nat (buf_length b)) / sampleRate b)%Q.

(** [ctx.createBuffer(numberOfChannels, length, sampleRate)].  The length
    goes through the unsigned long conversion (integer part, modulo 2^32).
    NotSupportedError for no channel, no frame, more than 32 channels or a
    rate outside 8000..96000: up to 32 channels and these rates are what
    every implementation accepts (what happens beyond depends on the
    browser and is taken as refused). *)
Definition createBuffer (numChannels : nat) (len : Q) (rate : Q)
    : exn + AudioBuffer :=
  let n := Z.to_nat (Qfloor len mod 4294967296) in
  if (numChannels =? 0)%nat || (32 <? numChannels)%nat || (n =? 0)%nat
     || negb (Qle_bool 8000 rate && Qle_bool rate 96000)
  then inl NotSupportedError
  else inr {| numberOfChannels := numChannels; buf_length := n;
              sampleRate := rate;
              channelData := replicate numChannels (replicate n (Fin 0)) |}.

(** [dataInt16[k] / 32768.0]; an index past the end reads [undefined],
    which divides to NaN. *)
Definition sample_at (dataInt16 : Int16Array) (k : nat) : float :=
  match dataInt16 !! k with
  | Some v => Fin (inject_Z v / 32768)%Q
  | None => NaN
  end.

(** The inner loop [for (i = 0; i < frameCount; i++)] on one channel;
    [frameCount] is a real number, so [i] runs below its ceiling. *)
Definition fill_channel (dataInt16 : Int16Array) (numChannels channel : nat)
    (frameCount : Q) (data : Float32Array) : Float32Array :=
  store_all (λ i, sample_at dataInt16 (i * numChannels + channel))
            (seq 0 (Z.to_nat (Qceiling frameCount))) data.

(** [frameCount] is only used when [numChannels] is not 0: with no channel
    [createBuffer] throws whatever the length is. *)
Definition decodeAudioData (data : Uint8Array) (rate : Q) (numChannels : nat)
    : exn + AudioBuffer :=
  match new_Int16Array data with
  | inl e => inl e
  | inr dataInt16 =>
      let frameCount :=
        (inject_Z (Z.of_nat (length dataInt16))
         / inject_Z (Z.of_nat numChannels))%Q in
      match createBuffer numChannels frameCount rate with
      | inl e => inl e
      | inr buffer =>
          inr {| numberOfChannels := numberOfChannels buffer;
                 buf_length := buf_length buffer;
                 sampleRate := sampleRate buffer;
                 channelData :=
                   imap (λ channel data,
                           fill_channel dataInt16 numChannels channel
                             frameCount data)
                        (channelData buffer) |}
      end
  end.

(** Three 16-bit elements (1, 2, -1), to be read as two channels. *)
Definition unaligned_frame : Uint8Array := [x01; x00; x02; x00; xff; xff].

(** The Float32 value 1 - 2^-16. *)
Definition near_one : Q := 65535 # 65536.

End Pcm.

(* ===================================================================== *)
(** ** Resampler: [downsampleTo16k]                                       *)
(* ===================================================================== *)

Module Resampler.
Import Host Float Pcm.
#[local] Open Scope Q_scope.

(** [new Float32Array(len)] for an integral [len]: RangeError when it is
    negative, else [len] zeros. *)
Definition new_Float32Array (len : Z) : exn + Float32Array :=
  if (len <? 0)%Z then inl RangeError
  else inr (replicate (Z.to_nat len) (Fin 0)).

(** [buffer[k]] used as a number: [undefined], read outside the array,
    becomes NaN in the arithmetic. *)
Definition read (buffer : Float32Array) (k : Z) : float :=
  if (k <? 0)%Z then NaN
  else match buffer !! Z.to_nat k with
       | Some v => v
       | None => NaN
       end.

Definition originalIndex (ratio : Q) (i : nat) : Q :=
  inject_Z (Z.of_nat i) * ratio.

Definition index1 (ratio : Q) (i : nat) : Z := Qfloor (originalIndex ratio i).

Definition index2 (ratio : Q) (len : nat) (i : nat) : Z :=
  Z.min (Qceiling (originalIndex ratio i)) (Z.of_nat len - 1).

Definition weight (ratio : Q) (i : nat) : Q :=
  originalIndex ratio i - inject_Z (index1 ratio i).

(** The body of the loop: the linear interpolation stored in [result[i]]. *)
Definition interpolate (buffer : Float32Array) (ratio : Q) (i : nat) : float :=
  fadd (fmul (read buffer (index1 ratio i)) (Fin (1 - weight ratio i)))
       (fmul (read buffer (index2 ratio (length buffer) i))
             (Fin (weight ratio i))).

(** [Math.round(buffer.length / ratio)] as the constructor of the result
    receives it.  A zero ratio divides to Infinity (RangeError in the
    constructor), or to NaN for an empty buffer (length 0). *)
Definition newLength (len : nat) (ratio : Q) : exn + Z :=
  if Qeq_bool ratio 0
  then (if (len =? 0)%nat then inr 0%Z else inl RangeError)
  else inr (Math_round (inject_Z (Z.of_nat len) / ratio)).

(** Rates and quotients are exact here; the rounding of binary64, and of
    the store into the Float32Array, is not modelled. *)
Definition downsampleTo16k (buffer : Float32Array) (inputRate : Q)
    : exn + Float32Array :=
  if Qeq_bool inputRate 16000 then inr buffer
  else
    let ratio := inputRate / 16000 in
    match newLength (length buffer) ratio with
    | inl e => inl e
    | inr n =>
        match new_Float32Array n with
        | inl e => inl e
        | inr result =>
            inr (store_all (interpolate buffer ratio) (seq 0 (Z.to_nat n)) result)
        end
    end.

End Resampler.

(* ===================================================================== *)
(** ** Capture side: the [onaudioprocess] callback                        *)
(* ===================================================================== *)

Module Capture.
Import Float Pcm Resampler.


(** [createPcmBlob(e.inputBuffer.getChannelData(0))], the media sent. *)
Definition onaudioprocess (block : Float32Array) : option Blob :=
  createPcmBlob block.

(** The outbound unit as the specification words it: the block goes
    through the resampler, then through the PCM frame builder. *)
Definition outbound_through_resampler (block : Float32Array) (captureRate : Q)
    : option Blob :=
  match downsampleTo16k block captureRate with
  | inr resampled => createPcmBlob resampled
  | inl _ => None
  end.

End Capture.

(* ===================================================================== *)
(** ** Playback scheduling, ducking and interruption: [onmessage]         *)
(* ===================================================================== *)

Module Playback.
Import Host Codec Float Pcm.
#[local] Open Scope Q_scope.

(** *** The gain of the system-audio path: an AudioParam *)

Inductive AutomationKind := SetValue | LinearRamp.

Record AutomationEvent := {
  ev_kind : AutomationKind;
  ev_value : Q;
  ev_time : Q
}.

(** The value given by [gain.value = v] and the automation events, kept in
    the order of their times. *)
Record AudioParam := {
  initial_value : Q;
  timeline : list AutomationEvent
}.

(** The event [e] is strictly before the time [t]. *)
Definition before (t : Q) (e : AutomationEvent) : bool :=
  if Qlt_le_dec (ev_time e) t then true else false.

(** [cancelScheduledValues(t)] removes the events at or after [t]. *)
Definition cancelScheduledValues (t : Q) (p : AudioParam) : AudioParam :=
  {| initial_value := initial_value p;
     timeline := List.filter (before t) (timeline p) |}.

(** A new event goes after the events at or before its time. *)
Fixpoint insert_event (e : AutomationEvent) (tl : list AutomationEvent)
    : list AutomationEvent :=
  match tl with
  | [] => [e]
  | e' :: rest =>
      if Qlt_le_dec (ev_time e) (ev_time e') then e :: tl
      else e' :: insert_event e rest
  end.

Definition setValueAtTime (v t : Q) (p : AudioParam) : AudioParam :=
  {| initial_value := initial_value p;
     timeline :=
       insert_event {| ev_kind := SetValue; ev_value := v; ev_time := t |}
                    (timeline p) |}.

Definition linearRampToValueAtTime (v t : Q) (p : AudioParam) : AudioParam :=
  {| initial_value := initial_value p;
     timeline :=
       insert_event {| ev_kind := LinearRamp; ev_value := v; ev_time := t |}
                    (timeline p) |}.

(** Where the automation ends up: the value of the last event, the target
    of a ramp or a value set, and the initial value when nothing is
    scheduled. *)
Definition target (p : AudioParam) : Q :=
  match last (timeline p) with
  | Some e => ev_value e
  | None => initial_value p
  end.

(** *** The state held in the refs *)

(** An [AudioBufferSourceNode] that was started at [node_when]. *)
Record BufferSourceNode := {
  node_buffer : AudioBuffer;
  node_when : Q;
  node_stopped : bool
}.

(** [sources] holds every source node created so far; a node is named by
    its position there.  [audioContextRef] tells whether the two contexts
    exist. *)
Record App := {
  audioContextRef : bool;
  nextStartTimeRef : Q;
  audioSourcesRef : gset nat;
  systemGainRef : option AudioParam;
  isModelSpeaking : bool;
  sources : list BufferSourceNode
}.

(** What a callback reads from the host while it runs:
    [outCtx.currentTime], [inputCtx.currentTime] and [gain.value]. *)
Record Readings := {
  out_now : Q;
  in_now : Q;
  gain_now : Q
}.

(** The parts of a [LiveServerMessage] that reach the audio state:
    [serverContent.interrupted] and the inline data of the first part of
    the model turn.  Tool calls and transcriptions do not touch it. *)
Record LiveServerMessage := {
  interrupted : bool;
  inlineData : option jsstring
}.

Definition nominal_gain : Q := 0.7.

(** After [startSession]: both contexts, the gain at 0.7, nothing played. *)
Definition session_start : App :=
  {| audioContextRef := true;
     nextStartTimeRef := 0;
     audioSourcesRef := ∅;
     systemGainRef := Some {| initial_value := nominal_gain; timeline := [] |};
     isModelSpeaking := false;
     sources := [] |}.

(** *** The interrupted branch *)

Definition stop (s : BufferSourceNode) : BufferSourceNode :=
  {| node_buffer := node_buffer s; node_when := node_when s;
     node_stopped := true |}.

(** [audioSourcesRef.current.forEach(s => s.stop())] *)
Definition stop_all (ids : gset nat) (nodes : list BufferSourceNode)
    : list BufferSourceNode :=
  set_fold (λ id nodes, alter stop id nodes) nodes ids.

Definition restore_now (r : Readings) (g : AudioParam) : AudioParam :=
  setValueAtTime nominal_gain (in_now r) (cancelScheduledValues (in_now r) g).

Definition on_interrupted (r : Readings) (st : App) : App :=
  {| audioContextRef := audioContextRef st;
     nextStartTimeRef := 0;
     audioSourcesRef := ∅;
     systemGainRef :=
       match systemGainRef st with
       | Some g => if audioContextRef st then Some (restore_now r g) else Some g
       | None => None
       end;
     isModelSpeaking := false;
     sources := stop_all (audioSourcesRef st) (sources st) |}.

(** *** The audio branch *)

(** The ramp down scheduled with every frame. *)
Definition duck (r : Readings) (g : AudioParam) : AudioParam :=
  linearRampToValueAtTime 0 (in_now r + 0.05)
    (setValueAtTime (gain_now r) (in_now r)
       (cancelScheduledValues (in_now r) g)).

(** The ramp up scheduled when the last source ends. *)
Definition restore (r : Readings) (g : AudioParam) : AudioParam :=
  linearRampToValueAtTime nominal_gain (in_now r + 0.2)
    (setValueAtTime 0 (in_now r)
       (cancelScheduledValues (in_now r) g)).

(** The cursor after the test [nextStartTime < outCtx.currentTime].  It is
    the time given to [source.start], which throws only for a negative
    time: that cannot happen while the clock reads no less than 0. *)
Definition start_time (r : Readings) (cursor : Q) : Q :=
  if Qlt_le_dec cursor (out_now r) then out_now r + 0.05 else cursor.

(** [decodeAudioData(decodeAudio(audioBase64), outCtx, 24000, 1)] *)
Definition decode_frame (audioBase64 : jsstring) : option AudioBuffer :=
  match decodeAudio audioBase64 with
  | Some audioData =>
      match decodeAudioData audioData 24000 1 with
      | inr audioBuffer => Some audioBuffer
      | inl _ => None
      end
  | None => None
  end.

(** The cursor is moved first; a payload that does not decode throws
    there, and nothing else of the state changes. *)
Definition on_audio (r : Readings) (audioBase64 : jsstring) (st : App) : App :=
  let cursor := start_time r (nextStartTimeRef st) in
  match decode_frame audioBase64 with
  | None =>
      {| audioContextRef := audioContextRef st;
         nextStartTimeRef := cursor;
         audioSourcesRef := audioSourcesRef st;
         systemGainRef := systemGainRef st;
         isModelSpeaking := isModelSpeaking st;
         sources := sources st |}
  | Some audioBuffer =>
      let source := length (sources st) in
      {| audioContextRef := audioContextRef st;
         nextStartTimeRef := cursor + duration audioBuffer;
         audioSourcesRef := {[source]} ∪ audioSourcesRef st;
         systemGainRef := duck r <$> systemGainRef st;
         isModelSpeaking := true;
         sources :=
           sources st ++ [{| node_buffer := audioBuffer; node_when := cursor;
                             node_stopped := false |}] |}
  end.

(** The ['ended'] listener of the source [source]. *)
Definition on_ended (r : Readings) (source : nat) (st : App) : App :=
  let remaining := audioSourcesRef st ∖ {[source]} in
  if decide (size remaining = 0%nat) then
    {| audioContextRef := audioContextRef st;
       nextStartTimeRef := nextStartTimeRef st;
       audioSourcesRef := remaining;
       systemGainRef := restore r <$> systemGainRef st;
       isModelSpeaking := false;
       sources := sources st |}
  else
    {| audioContextRef := audioContextRef st;
       nextStartTimeRef := nextStartTimeRef st;
       audioSourcesRef := remaining;
       systemGainRef := systemGainRef st;
       isModelSpeaking := isModelSpeaking st;
       sources := sources st |}.

(** An empty string is falsy, and so is a missing field. *)
Definition onmessage (r : Readings) (message : LiveServerMessage) (st : App) : App :=
  if interrupted message then on_interrupted r st
  else match inlineData message with
       | Some (c :: audioBase64) =>
           if audioContextRef st then on_audio r (c :: audioBase64) st else st
       | _ => st
       end.

(** *** Runs of the two callbacks *)

Inductive event :=
| Message (r : Readings) (message : LiveServerMessage)
| Ended (r : Readings) (source : nat).

Definition step (st : App) (e : event) : App :=
  match e with
  | Message r message => onmessage r message st
  | Ended r source => on_ended r source st
  end.

Definition run (evs : list event) (st : App) : App := fold_left step evs st.

Definition reachable (st : App) : Prop := ∃ evs, st = run evs session_start.

(** What the runs preserve: the contexts and the gain exist, the active
    set names sources that were created, and the gain ends on 0 exactly
    while the set is not empty. *)
Record well_formed (st : App) : Prop := {
  wf_context : audioContextRef st = true;
  wf_gain : is_Some (systemGainRef st);
  wf_sources : ∀ id, id ∈ audioSourcesRef st → (id < length (sources st))%nat;
  wf_ducking :
    ∀ g, systemGainRef st = Some g →
      (audioSourcesRef st ≠ ∅ → target g = 0)
      ∧ (audioSourcesRef st = ∅ → target g = nominal_gain)
}.

(** A message that only carries audio. *)
Definition audio_message (audioBase64 : jsstring) : LiveServerMessage :=
  {| interrupted := false; inlineData := Some audioBase64 |}.

Definition interruption : LiveServerMessage :=
  {| interrupted := true; inlineData := None |}.

(** Inbound frames handled one after the other. *)
Definition play_frames (frames : list (Readings * jsstring)) (st : App) : App :=
  fold_left (λ st f, onmessage f.1 (audio_message f.2) st) frames st.

(** The sources that a run of frames creates from the cursor [cursor], and
    the cursor it leaves, read off [on_audio]. *)
Fixpoint new_sources (cursor : Q) (frames : list (Readings * jsstring))
    : list BufferSourceNode :=
  match frames with
  | [] => []
  | f :: rest =>
      let start := start_time f.1 cursor in
      match decode_frame f.2 with
      | Some audioBuffer =>
          {| node_buffer := audioBuffer; node_when := start;
             node_stopped := false |}
            :: new_sources (start + duration audioBuffer) rest
      | None => new_sources start rest
      end
  end.

Fixpoint final_cursor (cursor : Q) (frames : list (Readings * jsstring)) : Q :=
  match frames with
  | [] => cursor
  | f :: rest =>
      let start := start_time f.1 cursor in
      match decode_frame f.2 with
      | Some audioBuffer => final_cursor (start + duration audioBuffer) rest
      | None => final_cursor start rest
      end
  end.

(** Twelve characters of base64 for eight zero bytes: four silent samples. *)
Definition four_samples : jsstring :=
  [65; 65; 65; 65; 65; 65; 65; 65; 65; 65; 65; 61]%N.

(** Both clocks at [t], the gain read as 0.7. *)
Definition readings_at (t : Q) : Readings :=
  {| out_now := t; in_now := t; gain_now := 0.7 |}.

End Playback.

(* ===================================================================== *)
(** ** Properties of the codec                                            *)
(* ===================================================================== *)

Module CodecProofs.
Import Host Codec.
#[local] Open Scope N_scope.

(** Induction three elements at a time, as [b64encode] recurses. *)
Lemma list_ind3 {A} (P : list A → Prop) :
  P [] → (∀ a, P [a]) → (∀ a b, P [a; b]) →
  (∀ a b c l, P l → P (a :: b :: c :: l)) → ∀ l, P l.
Proof.
  intros H0 H1 H2 H3 l.
  cut (P l ∧ (∀ a, P (a :: l)) ∧ (∀ a b, P (a :: b :: l))); [tauto|].
  induction l as [|x l (IH0 & IH1 & IH2)]; auto.
Qed.

Lemma list_ind2 {A} (P : list A → Prop) :
  P [] → (∀ a, P [a]) → (∀ a b l, P l → P (a :: b :: l)) → ∀ l, P l.
Proof.
  intros H0 H1 H2 l.
  cut (P l ∧ (∀ a, P (a :: l))); [tauto|].
  induction l as [|x l (IH0 & IH1)]; auto.
Qed.

Lemma b64encode_split s : b64encode s = map b64char (groups s) ++ padding s.
Proof.
  induction s as [|a|a b|a b c l IH] using list_ind3; try reflexivity.
  cbn [b64encode groups padding map app]. cbv zeta. by rewrite IH.
Qed.

Lemma groups_bounded s :
  Forall (λ x, x < 256) s → Forall (λ x, x < 64) (groups s).
Proof.
  induction s as [|a|a b|a b c l IH] using list_ind3; intros Hs.
  - constructor.
  - inversion_clear Hs. cbn. repeat constructor; div_lia.
  - inversion_clear Hs as [|? ? ? Hb]. inversion_clear Hb.
    cbn. repeat constructor; div_lia.
  - inversion_clear Hs as [|? ? ? Hb]. inversion_clear Hb as [|? ? ? Hc].
    inversion_clear Hc. cbn [groups]. cbv zeta.
    repeat (constructor; [div_lia|]). auto.
Qed.

Lemma decode_groups s :
  Forall (λ x, x < 256) s → decode_sextets (groups s) = s.
Proof.
  induction s as [|a|a b|a b c l IH] using list_ind3; intros Hs.
  - reflexivity.
  - inversion_clear Hs. cbn. f_equal. div_lia.
  - inversion_clear Hs as [|? ? ? Hb]. inversion_clear Hb.
    cbn. f_equal; [|f_equal]; div_lia.
  - inversion_clear Hs as [|? ? ? Hb]. inversion_clear Hb as [|? ? ? Hc].
    inversion_clear Hc. cbn [groups decode_sextets]. cbv zeta.
    rewrite IH by done. f_equal; [|f_equal; [|f_equal]]; div_lia.
Qed.

(** The number of sextets and the padding go together. *)
Lemma groups_shape s :
  ∃ k : nat,
    (padding s = [] ∧ length (groups s) = (4 * k)%nat)
    ∨ (padding s = [pad] ∧ length (groups s) = (4 * k + 3)%nat)
    ∨ (padding s = [pad; pad] ∧ length (groups s) = (4 * k + 2)%nat).
Proof.
  induction s as [|a|a b|a b c l IH] using list_ind3.
  - exists 0%nat. auto.
  - exists 0%nat. auto.
  - exists 0%nat. auto.
  - destruct IH as [k IH]. exists (S k). cbn [padding groups length].
    destruct IH as [[-> ->]|[[-> ->]|[-> ->]]]; [left|right; left|right; right];
      split; auto; lia.
Qed.

Lemma b64index_char s : s < 64 → b64index (b64char s) = Some s.
Proof.
  intros Hs. rewrite <- (N2Nat.id s).
  assert (Hn : (N.to_nat s < 64)%nat) by lia.
  revert Hn. generalize (N.to_nat s). clear. intros n Hn.
  do 64 (destruct n as [|n]; [reflexivity|]). lia.
Qed.

Lemma b64char_not_pad s : s < 64 → (b64char s =? pad) = false.
Proof.
  intros Hs. apply N.eqb_neq. intros E.
  pose proof (b64index_char s Hs) as H. rewrite E in H. discriminate.
Qed.

Lemma whitespace_no_index c : is_ascii_whitespace c = true → b64index c = None.
Proof.
  unfold is_ascii_whitespace. rewrite !orb_true_iff, !N.eqb_eq.
  intros [[[[->| ->]| ->]| ->]| ->]; reflexivity.
Qed.

Lemma b64char_not_whitespace s : s < 64 → is_ascii_whitespace (b64char s) = false.
Proof.
  intros Hs. destruct (is_ascii_whitespace _) eqn:E; [|done].
  apply whitespace_no_index in E. rewrite b64index_char in E; done.
Qed.

Lemma strip_whitespace_encoded g p :
  Forall (λ x, x < 64) g → Forall (λ c, c = pad) p →
  strip_whitespace (map b64char g ++ p) = map b64char g ++ p.
Proof.
  intros Hg Hp. unfold strip_whitespace. rewrite List.filter_app. f_equal.
  - induction Hg as [|x g Hx _ IH]; [done|]. cbn.
    rewrite b64char_not_whitespace by done. cbn. by rewrite IH.
  - induction Hp as [|x p -> _ IH]; [done|]. cbn. by rewrite IH.
Qed.

Lemma strip_padding_encoded g p :
  Forall (λ x, x < 64) g → p = [] ∨ p = [pad] ∨ p = [pad; pad] →
  strip_padding (map b64char g ++ p) = map b64char g.
Proof.
  intros Hg Hp.
  assert (Hl : Forall (λ c, (c =? pad) = false) (rev (map b64char g))).
  { apply Forall_rev, Forall_map. eapply Forall_impl; [exact Hg|].
    intros x Hx. by apply b64char_not_pad. }
  remember (rev (map b64char g)) as r eqn:Er.
  assert (El : map b64char g = rev r) by (by rewrite Er, rev_involutive).
  rewrite El. unfold strip_padding. rewrite rev_app_distr, rev_involutive.
  destruct Hl as [|c r Hc _]; destruct Hp as [->|[->| ->]]; cbn [rev app];
    rewrite ?N.eqb_refl, ?Hc, ?app_nil_r; reflexivity.
Qed.

Lemma sextets_chars g :
  Forall (λ x, x < 64) g → sextets (map b64char g) = Some g.
Proof.
  induction 1 as [|x g Hx _ IH]; [done|].
  cbn. by rewrite b64index_char, IH.
Qed.

(** [atob] undoes the encoding of any sequence of octets. *)
Lemma atob_b64encode s :
  Forall (λ x, x < 256) s → atob (b64encode s) = Some s.
Proof.
  intros Hs. pose proof (groups_bounded s Hs) as Hg.
  unfold atob. rewrite b64encode_split.
  destruct (groups_shape s) as [k Hk].
  assert (Hp : padding s = [] ∨ padding s = [pad] ∨ padding s = [pad; pad])
    by (destruct Hk as [[? _]|[[? _]|[? _]]]; auto).
  rewrite strip_whitespace_encoded; [|done|].
  2:{ destruct Hp as [->|[->| ->]]; repeat constructor. }
  assert (E0 : N.of_nat (length (map b64char (groups s) ++ padding s)) mod 4 = 0).
  { rewrite length_app, length_map.
    destruct Hk as [[-> ->]|[[-> ->]|[-> ->]]]; cbn [length]; div_lia. }
  rewrite E0. cbn [N.eqb]. rewrite strip_padding_encoded by done.
  assert (E1 : (N.of_nat (length (map b64char (groups s))) mod 4 =? 1) = false).
  { rewrite length_map. apply N.eqb_neq.
    destruct Hk as [[_ ->]|[[_ ->]|[_ ->]]]; div_lia. }
  rewrite E1, sextets_chars by done. by rewrite decode_groups.
Qed.

Lemma fromCharCode_octets bytes : Forall (λ x, x < 256) (fromCharCode bytes).
Proof.
  apply Forall_map, Forall_forall. intros b _.
  cbn. pose proof (Byte.to_N_bounded b). lia.
Qed.

Lemma btoa_octets s : Forall (λ x, x < 256) s → btoa s = Some (b64encode s).
Proof.
  intros Hs. unfold btoa.
  replace (forallb (λ c, c <=? 255) s) with true; [done|].
  symmetry. apply forallb_forall. intros c Hc.
  rewrite Forall_forall in Hs. apply N.leb_le.
  assert (c < 256) by (apply Hs, list_elem_of_In, Hc). lia.
Qed.

Lemma ToUint8_fromCharCode bytes : map ToUint8 (fromCharCode bytes) = bytes.
Proof.
  unfold fromCharCode. rewrite map_map. rewrite <- (map_id bytes) at 2.
  apply map_ext. intros b. unfold ToUint8.
  pose proof (Byte.to_N_bounded b).
  rewrite N.mod_small by lia. by rewrite Byte.of_to_N.
Qed.

(** The loop only concatenates the chunks it cuts: with enough fuel the
    result is the accumulator followed by the code units of the rest. *)
Lemma encode_loop_spec chunk fuel bytes i binary :
  (0 < chunk)%nat → (length bytes - i ≤ fuel)%nat →
  encode_loop chunk fuel bytes i binary = binary ++ fromCharCode (skipn i bytes).
Proof.
  intros Hc. revert i binary.
  induction fuel as [|fuel IH]; intros i binary Hf; cbn [encode_loop].
  - rewrite skipn_all2 by lia. by rewrite app_nil_r.
  - destruct (Nat.ltb_spec i (length bytes)) as [Hi|Hi].
    + rewrite IH by lia. rewrite <- app_assoc. f_equal.
      unfold subarray, fromCharCode. rewrite <- map_app. f_equal.
      replace (i + chunk - i)%nat with chunk by lia.
      rewrite (Nat.add_comm i chunk), <- skipn_skipn.
      apply firstn_skipn.
    + rewrite skipn_all2 by lia. by rewrite app_nil_r.
Qed.

Lemma chunkSize_pos : (0 < chunkSize)%nat.
Proof. unfold chunkSize. lia. Qed.

Lemma encode_loop_all bytes :
  encode_loop chunkSize (length bytes) bytes 0 [] = fromCharCode bytes.
Proof.
  rewrite encode_loop_spec; [done|apply chunkSize_pos|lia].
Qed.

Lemma encodeAudio_value B : encodeAudio B = Some (b64encode (fromCharCode B)).
Proof.
  unfold encodeAudio. rewrite encode_loop_all.
  apply btoa_octets, fromCharCode_octets.
Qed.

Lemma decodeAudio_encoded B : decodeAudio (b64encode (fromCharCode B)) = Some B.
Proof.
  unfold decodeAudio. rewrite atob_b64encode by apply fromCharCode_octets.
  by rewrite ToUint8_fromCharCode.
Qed.

(** C1.  For every byte buffer [B], [encodeAudio B] returns a text [t] and
    [decodeAudio t] returns [B]; and the chunked encoding is the encoding
    with no chunking, so chunk boundaries cannot be observed. *)
Theorem encode_decode_roundtrip (B : Uint8Array) :
  (∃ t, encodeAudio B = Some t ∧ decodeAudio t = Some B)
  ∧ encodeAudio B = encodeAudio_unchunked B.
Proof.
  split.
  - exists (b64encode (fromCharCode B)).
    split; [apply encodeAudio_value|apply decodeAudio_encoded].
  - unfold encodeAudio, encodeAudio_unchunked. by rewrite encode_loop_all.
Qed.

(** The empty buffer. *)
Example roundtrip_empty : encodeAudio [] = Some [] ∧ decodeAudio [] = Some [].
Proof. split; reflexivity. Qed.

End CodecProofs.

(* ===================================================================== *)
(** ** Properties of the number conversions                               *)
(* ===================================================================== *)

Module FloatProofs.
Import Float.
#[local] Open Scope Q_scope.

Lemma Qtrunc_nonneg x : 0 <= x → Qtrunc x = Qfloor x.
Proof.
  destruct x as [n d]. unfold Qle, Qtrunc, Qfloor. cbn. intros H.
  apply Z.quot_div_nonneg; lia.
Qed.

Lemma Qtrunc_nonpos x : x <= 0 → Qtrunc x = Qceiling x.
Proof.
  destruct x as [n d]. unfold Qle, Qtrunc, Qceiling, Qfloor. cbn. intros H.
  rewrite <- (Z.quot_div_nonneg (- n)) by lia.
  rewrite Z.quot_opp_l by lia. lia.
Qed.

Lemma wrap16_small n : (-32768 <= n <= 32767)%Z → wrap16 n = n.
Proof.
  intros H. unfold wrap16. cbv zeta.
  destruct (Z.ltb_spec (n mod 65536) 32768); div_lia.
Qed.

Lemma Qfloor_between x (a b : Z) :
  inject_Z a <= x → x <= inject_Z b → (a <= Qfloor x <= b)%Z.
Proof.
  intros Ha Hb. split.
  - rewrite <- (Qfloor_Z a). by apply Qfloor_resp_le.
  - rewrite <- (Qfloor_Z b). by apply Qfloor_resp_le.
Qed.

Lemma Qceiling_between x (a b : Z) :
  inject_Z a <= x → x <= inject_Z b → (a <= Qceiling x <= b)%Z.
Proof.
  intros Ha Hb. split.
  - rewrite <- (Qceiling_Z a). by apply Qceiling_resp_le.
  - rewrite <- (Qceiling_Z b). by apply Qceiling_resp_le.
Qed.

Lemma Qfloor_succ_gt x : x < inject_Z (Qfloor x) + 1.
Proof.
  pose proof (Qlt_floor x) as H. rewrite inject_Z_plus in H. exact H.
Qed.

Lemma Qceiling_pred_lt x : inject_Z (Qceiling x) - 1 < x.
Proof.
  pose proof (Qceiling_lt x) as H. unfold Z.sub in H.
  rewrite inject_Z_plus in H. exact H.
Qed.

End FloatProofs.

(* ===================================================================== *)
(** ** Loops that store into an array, index by index                     *)
(* ===================================================================== *)

Module ArrayProofs.
Import Host.

Section Store.
Context {A : Type} (f : nat → A).

Lemma store_all_length idxs l : length (store_all f idxs l) = length l.
Proof.
  revert l. induction idxs as [|i idxs IH]; intros l; [done|].
  cbn. unfold store_all in IH. by rewrite IH, length_insert.
Qed.

Lemma store_all_lookup m l k :
  store_all f (seq 0 m) l !! k
  = if decide (k < m ∧ k < length l) then Some (f k) else l !! k.
Proof.
  induction m as [|m IH].
  - cbn. destruct (decide _) as [[? _]|_]; [lia|done].
  - unfold store_all in *. rewrite seq_S, fold_left_app. cbn [fold_left].
    rewrite list_lookup_insert, IH.
    fold (store_all f (seq 0 m) l). rewrite store_all_length.
    repeat destruct (decide _) as [[? ?]|?]; try done; try lia.
    f_equal. f_equal. lia.
Qed.

Lemma lookup_map_seq n i : i < n → map f (seq 0 n) !! i = Some (f i).
Proof.
  intros Hi. change (map f) with (fmap (M:=list) f).
  by rewrite list_lookup_fmap, lookup_seq_lt.
Qed.

(** A loop that runs over at least the whole array rewrites it all. *)
Lemma store_all_covers m l :
  length l ≤ m → store_all f (seq 0 m) l = map f (seq 0 (length l)).
Proof.
  intros Hm. apply list_eq. intros k. rewrite store_all_lookup.
  destruct (decide _) as [[_ Hk]|Hk].
  - change (map f) with (fmap (M:=list) f). rewrite list_lookup_fmap.
    by rewrite lookup_seq_lt.
  - assert (length l ≤ k) by lia.
    rewrite lookup_ge_None_2 by done. symmetry.
    apply lookup_ge_None_2. rewrite length_map, length_seq. done.
Qed.
End Store.

End ArrayProofs.

(* ===================================================================== *)
(** ** Properties of the PCM frame builder and of the inbound decoder     *)
(* ===================================================================== *)

Module PcmProofs.
Import Host Codec Float Pcm FloatProofs CodecProofs.
#[local] Open Scope Q_scope.

(** What [toPcm16_sample] stores for a finite sample, case by case. *)
Lemma toPcm16_above q : 1 < q → toPcm16_sample (Fin q) = 32767%Z.
Proof.
  intros H. unfold toPcm16_sample, Math_min, Math_max, flt.
  destruct (Qlt_le_dec q 1); [lra|].
  destruct (Qlt_le_dec (-1) 1); [|lra].
  destruct (Qlt_le_dec 1 0); [lra|]. reflexivity.
Qed.

Lemma toPcm16_below q : q < -1 → toPcm16_sample (Fin q) = (-32768)%Z.
Proof.
  intros H. unfold toPcm16_sample, Math_min, Math_max, flt.
  destruct (Qlt_le_dec q 1); [|lra].
  destruct (Qlt_le_dec (-1) q); [lra|].
  destruct (Qlt_le_dec (-1) 0); [|lra]. reflexivity.
Qed.

Lemma Qtrunc_scaled_negative q :
  -1 <= q → q <= 0 → (-32768 <= Qtrunc (q * 32768) <= 0)%Z.
Proof.
  intros H1 H2. rewrite Qtrunc_nonpos by lra.
  apply Qceiling_between; unfold inject_Z; lra.
Qed.

Lemma Qtrunc_scaled_nonneg q :
  0 <= q → q <= 1 → (0 <= Qtrunc (q * 32767) <= 32767)%Z.
Proof.
  intros H1 H2. rewrite Qtrunc_nonneg by lra.
  apply Qfloor_between; unfold inject_Z; lra.
Qed.

Lemma toPcm16_negative q :
  -1 <= q → q < 0 → toPcm16_sample (Fin q) = Qtrunc (q * 32768).
Proof.
  intros H1 H2. unfold toPcm16_sample, Math_min, Math_max, flt.
  destruct (Qlt_le_dec q 1); [|lra].
  destruct (Qlt_le_dec (-1) q) as [Hq|Hq]; cbv iota.
  - destruct (Qlt_le_dec q 0); [|lra]. cbn [fmul ToInt16].
    apply wrap16_small. pose proof (Qtrunc_scaled_negative q ltac:(lra) ltac:(lra)). lia.
  - destruct (Qlt_le_dec (-1) 0); [|lra]. cbn [fmul ToInt16].
    rewrite wrap16_small by (vm_compute; split; discriminate).
    rewrite !Qtrunc_nonpos by lra. apply Qceiling_comp. lra.
Qed.

Lemma toPcm16_nonneg q :
  0 <= q → q <= 1 → toPcm16_sample (Fin q) = Qtrunc (q * 32767).
Proof.
  intros H1 H2. unfold toPcm16_sample, Math_min, Math_max, flt.
  destruct (Qlt_le_dec q 1) as [Hq|Hq]; cbv iota.
  - destruct (Qlt_le_dec (-1) q); [|lra].
    destruct (Qlt_le_dec q 0); [lra|]. cbn [fmul ToInt16].
    apply wrap16_small. pose proof (Qtrunc_scaled_nonneg q ltac:(lra) ltac:(lra)). lia.
  - destruct (Qlt_le_dec (-1) 1); [|lra].
    destruct (Qlt_le_dec 1 0); [lra|]. cbn [fmul ToInt16].
    rewrite wrap16_small by (vm_compute; split; discriminate).
    rewrite !Qtrunc_nonneg by lra. apply Qfloor_comp. lra.
Qed.

(** C7.  A sample above 1 (finite or infinite) is stored as +1 is, namely
    32767, and a sample below -1 as -1 is, namely -32768; a finite sample in
    [-1, 0) is stored as the integer part of 32768 times it and one in
    [0, 1] as the integer part of 32767 times it; the stored value is in
    the signed 16-bit range before any wrap-around applies. *)
Theorem toPcm16_clamps_and_scales (x : float) :
  (flt (Fin 1) x = true →
     toPcm16_sample x = toPcm16_sample (Fin 1) ∧ toPcm16_sample x = 32767%Z)
  ∧ (flt x (Fin (-1)) = true →
     toPcm16_sample x = toPcm16_sample (Fin (-1))
     ∧ toPcm16_sample x = (-32768)%Z)
  ∧ (∀ q, x = Fin q → -1 <= q → q < 0 →
     toPcm16_sample x = Qtrunc (q * 32768)
     ∧ (-32768 <= Qtrunc (q * 32768) <= 0)%Z)
  ∧ (∀ q, x = Fin q → 0 <= q → q <= 1 →
     toPcm16_sample x = Qtrunc (q * 32767)
     ∧ (0 <= Qtrunc (q * 32767) <= 32767)%Z)
  ∧ (-32768 <= toPcm16_sample x <= 32767)%Z.
Proof.
  split; [|split; [|split; [|split]]].
  - destruct x as [q| | |]; cbn [flt]; try discriminate; [|by intros _].
    destruct (Qlt_le_dec 1 q); [|discriminate].
    intros _. by rewrite toPcm16_above.
  - destruct x as [q| | |]; cbn [flt]; try discriminate; [|by intros _].
    destruct (Qlt_le_dec q (-1)); [|discriminate].
    intros _. by rewrite toPcm16_below.
  - intros q -> H1 H2. split; [by apply toPcm16_negative|].
    apply Qtrunc_scaled_negative; lra.
  - intros q -> H1 H2. split; [by apply toPcm16_nonneg|].
    by apply Qtrunc_scaled_nonneg.
  - destruct x as [q| | |]; [|vm_compute; split; discriminate..].
    destruct (Qlt_le_dec q (-1)); [rewrite toPcm16_below by done; lia|].
    destruct (Qlt_le_dec 1 q); [rewrite toPcm16_above by done; lia|].
    destruct (Qlt_le_dec q 0).
    + rewrite toPcm16_negative by done.
      pose proof (Qtrunc_scaled_negative q ltac:(lra) ltac:(lra)). lia.
    + rewrite toPcm16_nonneg by done.
      pose proof (Qtrunc_scaled_nonneg q ltac:(lra) ltac:(lra)). lia.
Qed.

(** Witness of C7 at the samples 2, -3, -1/2 and 1/2. *)
Lemma toPcm16_clamps_and_scales_witness :
  toPcm16_sample (Fin 2) = 32767%Z
  ∧ toPcm16_sample (Fin (-3)) = (-32768)%Z
  ∧ toPcm16_sample (Fin (-1 # 2)) = Qtrunc ((-1 # 2) * 32768)
  ∧ toPcm16_sample (Fin (1 # 2)) = Qtrunc ((1 # 2) * 32767).
Proof.
  split; [|split; [|split]].
  - apply (proj1 (toPcm16_clamps_and_scales (Fin 2))). reflexivity.
  - apply (proj1 (proj2 (toPcm16_clamps_and_scales (Fin (-3))))). reflexivity.
  - apply (proj1 (proj2 (proj2 (toPcm16_clamps_and_scales (Fin (-1 # 2)))))
             (-1 # 2) eq_refl); vm_compute; [discriminate|reflexivity].
  - apply (proj1 (proj2 (proj2 (proj2 (toPcm16_clamps_and_scales (Fin (1 # 2))))))
             (1 # 2) eq_refl); vm_compute; discriminate.
Defined.

(** *** Bytes of a 16-bit element *)

Lemma to_N_byte_of_Z z : (0 <= z < 256)%Z → Byte.to_N (byte_of_Z z) = Z.to_N z.
Proof.
  intros Hz. unfold byte_of_Z.
  destruct (Byte.of_N (Z.to_N z)) as [b|] eqn:E.
  - by apply Byte.to_of_N.
  - apply Byte.of_N_None_iff in E. lia.
Qed.

Lemma int16_bytes_roundtrip n :
  (-32768 <= n <= 32767)%Z → int16_elements (int16_bytes n) = [n].
Proof.
  intros Hn. unfold int16_bytes. cbv zeta. cbn [int16_elements].
  unfold int16_of_bytes. rewrite !to_N_byte_of_Z by div_lia.
  rewrite !Z2N.id by div_lia. f_equal.
  replace ((n mod 65536) mod 256 + 256 * (n mod 65536 / 256))%Z
    with (n mod 65536)%Z by div_lia.
  unfold wrap16. cbv zeta. rewrite Zmod_mod.
  destruct (Z.ltb_spec (n mod 65536) 32768); div_lia.
Qed.

(** *** The inbound decoder *)

(** With an even byte length, at least one channel and at least one whole
    frame, [decodeAudioData] returns the de-interleaved buffer: channel
    [ch] holds the elements [ch], [ch + c], [ch + 2c], ... over 32768, one
    per whole frame. *)
Lemma decodeAudioData_ok data rate c :
  let ints := int16_elements data in
  let frames := (length ints / c)%nat in
  Nat.even (length data) = true →
  8000 <= rate → rate <= 96000 →
  (1 ≤ c ≤ 32)%nat → (1 ≤ frames)%nat → (Z.of_nat frames < 4294967296)%Z →
  decodeAudioData data rate c
  = inr {| numberOfChannels := c; buf_length := frames; sampleRate := rate;
           channelData :=
             map (λ ch, map (λ i, sample_at ints (i * c + ch)%nat) (seq 0 frames))
                 (seq 0 c) |}.
Proof.
  intros ints frames Heven Hlo Hhi Hc Hf Hlen.
  unfold decodeAudioData, new_Int16Array. rewrite Heven.
  fold ints. set (frameCount := _ / _).
  assert (HF : Qfloor frameCount = Z.of_nat frames).
  { unfold frameCount, frames. rewrite <- Zdiv_Qdiv. by rewrite Nat2Z.inj_div. }
  unfold createBuffer. rewrite HF, Z.mod_small, Nat2Z.id by lia.
  replace (c =? 0)%nat with false by (symmetry; apply Nat.eqb_neq; lia).
  replace (32 <? c)%nat with false by (symmetry; apply Nat.ltb_ge; lia).
  replace (frames =? 0)%nat with false by (symmetry; apply Nat.eqb_neq; lia).
  rewrite (proj2 (Qle_bool_iff 8000 rate) Hlo).
  rewrite (proj2 (Qle_bool_iff rate 96000) Hhi).
  cbn [orb andb negb numberOfChannels buf_length sampleRate channelData].
  do 2 f_equal. apply list_eq. intros ch.
  rewrite list_lookup_imap.
  change (map ?f ?l) with (fmap (M:=list) f l). rewrite list_lookup_fmap.
  destruct (decide (ch < c)%nat) as [Hch|Hch].
  - rewrite lookup_replicate_2, lookup_seq_lt by done. cbn. f_equal.
    unfold fill_channel. rewrite ArrayProofs.store_all_covers.
    + by rewrite length_replicate.
    + rewrite length_replicate. pose proof (Qle_floor_ceiling frameCount) as H.
      rewrite <- Zle_Qle in H. lia.
  - rewrite (proj1 (lookup_replicate_None _ _ _)) by lia.
    by rewrite lookup_seq_ge by lia.
Qed.

(** C5 as stated fails: three elements do not divide into two channels,
    and [decodeAudioData] still returns a buffer, of one frame. *)
Lemma decodeAudioData_accepts_unaligned :
  (length (int16_elements unaligned_frame) `mod` 2)%nat ≠ 0%nat
  ∧ ∃ buf, decodeAudioData unaligned_frame 24000 2 = inr buf
           ∧ buf_length buf = 1%nat.
Proof.
  split; [vm_compute; discriminate|].
  eexists. split; [vm_compute; reflexivity|reflexivity].
Qed.

(** C5, amended.  For an even byte length, [c >= 1] channels (up to the 32
    that every browser takes) and at least [c] elements, at a rate that
    [createBuffer] takes, [decodeAudioData] returns a buffer of [c] channels whose
    frame count is the integer quotient of the element count by [c],
    whether or not [c] divides it; channel [ch] holds at frame [i] the
    element [i * c + ch] over 32768, and the elements after the last whole
    frame are left out.  No alignment error is raised. *)
Theorem decodeAudioData_frame_count data rate c :
  let ints := int16_elements data in
  let frames := (length ints / c)%nat in
  Nat.even (length data) = true →
  8000 <= rate → rate <= 96000 →
  (1 ≤ c ≤ 32)%nat → (c ≤ length ints)%nat →
  (Z.of_nat (length ints) < 4294967296)%Z →
  ∃ buf,
    decodeAudioData data rate c = inr buf
    ∧ numberOfChannels buf = c
    ∧ buf_length buf = frames
    ∧ length (channelData buf) = c
    ∧ ∀ ch i, (ch < c)%nat → (i < frames)%nat →
        ∃ v, ints !! (i * c + ch)%nat = Some v
             ∧ channelData buf !! ch ≫= (.!! i) = Some (Fin (inject_Z v / 32768)).
Proof.
  intros ints frames Heven Hlo Hhi Hc Hn Hlen.
  assert (Hf : (1 ≤ frames)%nat).
  { unfold frames. apply Nat.div_le_lower_bound; lia. }
  assert (Hfl : (frames ≤ length ints)%nat).
  { unfold frames. apply Nat.Div0.div_le_upper_bound. nia. }
  eexists. split; [apply decodeAudioData_ok; try done; fold ints frames; lia|].
  cbn [numberOfChannels buf_length channelData].
  split; [done|]. split; [done|].
  split; [by rewrite length_map, length_seq|].
  intros ch i Hch Hi.
  assert (Hk : (i * c + ch < length ints)%nat).
  { pose proof (Nat.Div0.mul_div_le (length ints) c). fold frames in H. nia. }
  destruct (lookup_lt_is_Some_2 ints _ Hk) as [v Hv].
  exists v. split; [done|].
  rewrite ArrayProofs.lookup_map_seq by done. cbn [mbind option_bind].
  rewrite ArrayProofs.lookup_map_seq by done.
  unfold sample_at. fold ints. by rewrite Hv.
Qed.

(** Witness of the amended C5 on the three elements read as two channels. *)
Lemma decodeAudioData_frame_count_witness :
  ∃ buf, decodeAudioData unaligned_frame 24000 2 = inr buf
         ∧ numberOfChannels buf = 2%nat ∧ buf_length buf = 1%nat.
Proof.
  destruct (decodeAudioData_frame_count unaligned_frame 24000 2)
    as (buf & H1 & H2 & H3 & _).
  - reflexivity.
  - vm_compute. discriminate.
  - vm_compute. discriminate.
  - lia.
  - cbn. lia.
  - cbn. lia.
  - exists buf. split; [exact H1|]. split; [exact H2|exact H3].
Defined.

(** *** One sample through the frame builder, the wire and the decoder *)

Lemma single_sample_decoded n :
  (-32768 <= n <= 32767)%Z →
  decodeAudioData (int16_bytes n) 24000 1
  = inr {| numberOfChannels := 1; buf_length := 1; sampleRate := 24000;
           channelData := [[Fin (inject_Z n / 32768)]] |}.
Proof.
  intros Hn. rewrite decodeAudioData_ok; rewrite ?int16_bytes_roundtrip by done;
    try reflexivity; try (cbn; lia); try (vm_compute; discriminate).
Qed.

Lemma single_sample_chain x :
  let n := toPcm16_sample x in
  (-32768 <= n <= 32767)%Z →
  ∃ blob,
    createPcmBlob [x] = Some blob
    ∧ decodeAudio (blob_data blob) = Some (int16_bytes n)
    ∧ decodeAudioData (int16_bytes n) 24000 1
      = inr {| numberOfChannels := 1; buf_length := 1; sampleRate := 24000;
               channelData := [[Fin (inject_Z n / 32768)]] |}.
Proof.
  intros n Hn. unfold createPcmBlob. cbn [map]. fold n.
  unfold buffer_of_Int16Array. cbn [flat_map]. rewrite app_nil_r.
  rewrite encodeAudio_value. eexists. split; [reflexivity|].
  cbn [blob_data]. split; [apply decodeAudio_encoded|by apply single_sample_decoded].
Qed.

(** C6 as stated fails at the sample 1 - 2^-16: it is stored as 32766 and
    read back as 32766/32768, which is 1.5/32768 away. *)
Lemma pcm16_roundtrip_exceeds_one_step :
  -1 <= near_one ∧ near_one <= 1
  ∧ ∃ blob bytes buf v,
      createPcmBlob [Fin near_one] = Some blob
      ∧ decodeAudio (blob_data blob) = Some bytes
      ∧ decodeAudioData bytes 24000 1 = inr buf
      ∧ channelData buf = [[Fin v]]
      ∧ ¬ Qabs (v - near_one) <= 1 # 32768.
Proof.
  split; [vm_compute; discriminate|]. split; [vm_compute; discriminate|].
  do 4 eexists.
  split; [vm_compute; reflexivity|]. split; [vm_compute; reflexivity|].
  split; [vm_compute; reflexivity|]. split; [reflexivity|].
  vm_compute. intros H. by apply H.
Qed.

(** C6, amended.  A finite sample [q] in [-1, 1] that goes through
    [createPcmBlob], [decodeAudio] and [decodeAudioData] comes back as a
    value less than 2/32768 away, and less than 1/32768 away when
    [q <= 0]. *)
Theorem pcm16_roundtrip_error (q : Q) :
  -1 <= q → q <= 1 →
  ∃ blob bytes buf v,
    createPcmBlob [Fin q] = Some blob
    ∧ decodeAudio (blob_data blob) = Some bytes
    ∧ decodeAudioData bytes 24000 1 = inr buf
    ∧ channelData buf = [[Fin v]]
    ∧ Qabs (v - q) < 2 # 32768
    ∧ (q <= 0 → Qabs (v - q) < 1 # 32768).
Proof.
  intros Hlo Hhi.
  destruct (Qlt_le_dec q 0) as [Hneg|Hpos].
  - pose proof (toPcm16_negative q Hlo Hneg) as En.
    pose proof (Qtrunc_scaled_negative q ltac:(lra) ltac:(lra)) as Hn.
    destruct (single_sample_chain (Fin q)) as (blob & Hb & Hd & Hbuf).
    { cbv zeta. rewrite En. lia. }
    rewrite En in Hd, Hbuf. rewrite Qtrunc_nonpos in Hd, Hbuf by lra.
    eexists blob, _, _, _.
    split; [exact Hb|]. split; [exact Hd|]. split; [exact Hbuf|].
    split; [reflexivity|].
    pose proof (Qle_ceiling (q * 32768)) as H1.
    pose proof (Qceiling_pred_lt (q * 32768)) as H2.
    unfold Qdiv. change (/ 32768) with (1 # 32768).
    split; [|intros _]; apply Qabs_Qlt_condition; split; lra.
  - pose proof (toPcm16_nonneg q Hpos Hhi) as En.
    pose proof (Qtrunc_scaled_nonneg q Hpos Hhi) as Hn.
    destruct (single_sample_chain (Fin q)) as (blob & Hb & Hd & Hbuf).
    { cbv zeta. rewrite En. lia. }
    rewrite En in Hd, Hbuf. rewrite Qtrunc_nonneg in Hd, Hbuf by lra.
    eexists blob, _, _, _.
    split; [exact Hb|]. split; [exact Hd|]. split; [exact Hbuf|].
    split; [reflexivity|].
    pose proof (Qfloor_le (q * 32767)) as H1.
    pose proof (Qfloor_succ_gt (q * 32767)) as H2.
    unfold Qdiv. change (/ 32768) with (1 # 32768).
    split; [|intros Hq0]; apply Qabs_Qlt_condition; split; lra.
Qed.

(** Witness of the amended C6 at the samples 1 - 2^-16 and -1/2. *)
Lemma pcm16_roundtrip_error_witness :
  (∃ blob bytes buf v,
     createPcmBlob [Fin near_one] = Some blob
     ∧ decodeAudio (blob_data blob) = Some bytes
     ∧ decodeAudioData bytes 24000 1 = inr buf
     ∧ channelData buf = [[Fin v]]
     ∧ Qabs (v - near_one) < 2 # 32768)
  ∧ (∃ blob bytes buf v,
       createPcmBlob [Fin (-1 # 2)] = Some blob
       ∧ decodeAudio (blob_data blob) = Some bytes
       ∧ decodeAudioData bytes 24000 1 = inr buf
       ∧ channelData buf = [[Fin v]]
       ∧ Qabs (v - (-1 # 2)) < 1 # 32768).
Proof.
  split.
  - destruct (pcm16_roundtrip_error near_one)
      as (blob & bytes & buf & v & H1 & H2 & H3 & H4 & H5 & _).
    + vm_compute. discriminate.
    + vm_compute. discriminate.
    + exists blob, bytes, buf, v. auto.
  - destruct (pcm16_roundtrip_error (-1 # 2))
      as (blob & bytes & buf & v & H1 & H2 & H3 & H4 & _ & H6).
    + vm_compute. discriminate.
    + vm_compute. discriminate.
    + exists blob, bytes, buf, v.
      repeat (split; [assumption|]). apply H6. vm_compute. discriminate.
Defined.

End PcmProofs.

(* ===================================================================== *)
(** ** Properties of the resampler                                        *)
(* ===================================================================== *)

Module ResamplerProofs.
Import Host Float Pcm Resampler FloatProofs.
#[local] Open Scope Q_scope.

Lemma ratio_pos r : 0 < r → 0 < r / 16000.
Proof. intros Hr. unfold Qdiv. change (/ 16000) with (1 # 16000). lra. Qed.

Lemma Math_round_nonneg x : 0 <= x → (0 <= Math_round x)%Z.
Proof.
  intros Hx. unfold Math_round. rewrite <- (Qfloor_Z 0).
  apply Qfloor_resp_le. unfold inject_Z. lra.
Qed.

Lemma Math_round_near x :
  inject_Z (Math_round x) <= x + (1 # 2) ∧ x - (1 # 2) < inject_Z (Math_round x).
Proof.
  unfold Math_round.
  pose proof (Qfloor_le (x + (1 # 2))). pose proof (Qfloor_succ_gt (x + (1 # 2))).
  split; lra.
Qed.

Lemma quotient_nonneg (len : nat) ratio :
  0 < ratio → 0 <= inject_Z (Z.of_nat len) / ratio.
Proof.
  intros Hr. apply Qle_shift_div_l; [done|].
  rewrite Qmult_0_l. rewrite <- (Zle_Qle 0). lia.
Qed.

(** For a positive rate other than 16000 no constructor throws, and the
    loop stores an interpolated value at every index of the result. *)
Lemma downsampleTo16k_value buffer r :
  0 < r → ¬ r == 16000 →
  let ratio := r / 16000 in
  let n := Math_round (inject_Z (Z.of_nat (length buffer)) / ratio) in
  (0 <= n)%Z
  ∧ downsampleTo16k buffer r
    = inr (map (interpolate buffer ratio) (seq 0 (Z.to_nat n))).
Proof.
  intros Hr Hne ratio n.
  pose proof (ratio_pos r Hr) as Hratio. fold ratio in Hratio.
  assert (Hn : (0 <= n)%Z).
  { apply Math_round_nonneg, quotient_nonneg, Hratio. }
  split; [exact Hn|].
  unfold downsampleTo16k.
  destruct (Qeq_bool r 16000) eqn:E; [apply Qeq_bool_iff in E; contradiction|].
  fold ratio. unfold newLength.
  destruct (Qeq_bool ratio 0) eqn:E0; [apply Qeq_bool_iff in E0; lra|].
  fold n. unfold new_Float32Array.
  destruct (Z.ltb_spec n 0); [lia|].
  f_equal. rewrite ArrayProofs.store_all_covers by (by rewrite length_replicate).
  by rewrite length_replicate.
Qed.

(** Every index below the output length maps to a source position inside
    the input. *)
Lemma source_position_inside (len i : nat) ratio :
  0 < ratio →
  (Z.of_nat i < Math_round (inject_Z (Z.of_nat len) / ratio))%Z →
  0 <= originalIndex ratio i ∧ originalIndex ratio i < inject_Z (Z.of_nat len).
Proof.
  intros Hr Hi. unfold originalIndex.
  set (y := inject_Z (Z.of_nat len) / ratio) in *.
  assert (Hy : y * ratio == inject_Z (Z.of_nat len)).
  { unfold y. field. lra. }
  assert (H0 : 0 <= inject_Z (Z.of_nat i)) by (rewrite <- (Zle_Qle 0); lia).
  assert (H1 : inject_Z (Z.of_nat i) + 1 <= inject_Z (Math_round y)).
  { change 1 with (inject_Z 1). rewrite <- inject_Z_plus, <- Zle_Qle. lia. }
  destruct (Math_round_near y) as [H2 _].
  clearbody y. generalize dependent (inject_Z (Z.of_nat i)).
  generalize dependent (inject_Z (Math_round y)).
  generalize dependent (inject_Z (Z.of_nat len)).
  intros L HyL m H2 x H0 H1. split; nra.
Qed.

Lemma indices_inside (len i : nat) ratio :
  (1 ≤ len)%nat → 0 < ratio →
  (Z.of_nat i < Math_round (inject_Z (Z.of_nat len) / ratio))%Z →
  (0 <= index1 ratio i <= Z.of_nat len - 1)%Z
  ∧ (0 <= index2 ratio len i <= Z.of_nat len - 1)%Z.
Proof.
  intros Hlen Hr Hi.
  destruct (source_position_inside len i ratio Hr Hi) as [H0 H1].
  unfold index1, index2.
  set (x := originalIndex ratio i) in *.
  assert (Hfl : (0 <= Qfloor x)%Z).
  { rewrite <- (Qfloor_Z 0). apply Qfloor_resp_le. unfold inject_Z. lra. }
  assert (Hfu : (Qfloor x < Z.of_nat len)%Z).
  { rewrite Zlt_Qlt. pose proof (Qfloor_le x). lra. }
  assert (Hc : (0 <= Qceiling x)%Z).
  { rewrite <- (Qceiling_Z 0). apply Qceiling_resp_le. unfold inject_Z. lra. }
  lia.
Qed.





End ResamplerProofs.

(* ===================================================================== *)
(** ** Properties of the capture callback                                 *)
(* ===================================================================== *)

Module CaptureProofs.
Import Host Float Pcm Resampler Capture.


(** At another rate the resampled pipeline sends something else: the
    equality rests on the capture context running at 16000 Hz. *)
Example resampling_differs_off_rate :
  outbound_through_resampler [Fin 1; Fin 1; Fin 1] 48000
  ≠ onaudioprocess [Fin 1; Fin 1; Fin 1].
Proof. vm_compute. discriminate. Qed.

End CaptureProofs.

(* ===================================================================== *)
(** ** Properties of the playback scheduler and of the ducking            *)
(* ===================================================================== *)

Module PlaybackProofs.
Import Host Codec Float Pcm Playback.
#[local] Open Scope Q_scope.

(** *** The automation timeline *)

Lemma cancelled_before t g :
  Forall (λ e, ev_time e < t) (timeline (cancelScheduledValues t g)).
Proof.
  unfold cancelScheduledValues. cbn [timeline].
  induction (timeline g) as [|e tl IH]; cbn; [constructor|].
  unfold before at 1. destruct (Qlt_le_dec (ev_time e) t); [constructor|]; done.
Qed.

Lemma insert_event_last e tl :
  Forall (λ e', ev_time e' <= ev_time e) tl → insert_event e tl = tl ++ [e].
Proof.
  induction 1 as [|e' tl He' _ IH]; [done|]. cbn.
  destruct (Qlt_le_dec (ev_time e) (ev_time e')); [lra|]. by rewrite IH.
Qed.

(** Cancel at [t], set a value at [t]: the events before [t] stay and the
    value set comes last. *)
Lemma set_after_cancel v t g :
  timeline (setValueAtTime v t (cancelScheduledValues t g))
  = List.filter (before t) (timeline g)
    ++ [{| ev_kind := SetValue; ev_value := v; ev_time := t |}].
Proof.
  unfold setValueAtTime. cbn [timeline]. rewrite insert_event_last; [done|].
  eapply Forall_impl; [apply cancelled_before|]. cbn. intros e He. lra.
Qed.

(** Cancel at [t], set a value at [t], ramp to [v'] by [t + d]. *)
Lemma ramp_after_cancel v v' t d g :
  0 <= d →
  timeline (linearRampToValueAtTime v' (t + d)
              (setValueAtTime v t (cancelScheduledValues t g)))
  = List.filter (before t) (timeline g)
    ++ [{| ev_kind := SetValue; ev_value := v; ev_time := t |};
        {| ev_kind := LinearRamp; ev_value := v'; ev_time := t + d |}].
Proof.
  intros Hd. unfold linearRampToValueAtTime. cbn [timeline].
  rewrite set_after_cancel. rewrite insert_event_last.
  - by rewrite <- app_assoc.
  - apply Forall_app. split.
    + pose proof (cancelled_before t g) as H. cbn [timeline cancelScheduledValues] in H.
      eapply Forall_impl; [exact H|]. cbn. intros e He. lra.
    + repeat constructor. cbn. lra.
Qed.

Lemma target_restore_now r g : target (restore_now r g) = nominal_gain.
Proof.
  unfold target, restore_now. rewrite set_after_cancel. by rewrite last_snoc.
Qed.

Lemma target_duck r g : target (duck r g) = 0.
Proof.
  unfold target, duck. rewrite ramp_after_cancel by lra.
  by rewrite last_app_cons.
Qed.

Lemma target_restore r g : target (restore r g) = nominal_gain.
Proof.
  unfold target, restore. rewrite ramp_after_cancel by lra.
  by rewrite last_app_cons.
Qed.

(** *** What every reachable state satisfies *)

Lemma stop_all_length ids nodes : length (stop_all ids nodes) = length nodes.
Proof.
  unfold stop_all, set_fold. cbn.
  induction (elements ids) as [|id l IH]; [done|].
  cbn. by rewrite length_alter.
Qed.

Lemma stop_all_lookup ids nodes id :
  stop_all ids nodes !! id
  = if decide (id ∈ ids) then stop <$> nodes !! id else nodes !! id.
Proof.
  unfold stop_all, set_fold. cbn.
  assert (H : ∀ l : list nat,
    foldr (λ id nodes, alter stop id nodes) nodes l !! id
    = if decide (id ∈ l) then stop <$> nodes !! id else nodes !! id).
  { induction l as [|x l IH]; cbn.
    - destruct (decide _) as [Hin|_]; [by apply elem_of_nil in Hin|done].
    - destruct (decide (x = id)) as [->|Hne].
      + rewrite list_lookup_alter_eq, IH.
        destruct (decide (id ∈ id :: l)) as [_|Hn]; [|exfalso; apply Hn; left].
        destruct (decide (id ∈ l)); [|done].
        by destruct (nodes !! id).
      + rewrite list_lookup_alter_ne, IH by done.
        destruct (decide (id ∈ l)), (decide (id ∈ x :: l)) as [Hin|Hn];
          try done.
        * exfalso. apply Hn. by right.
        * apply elem_of_cons in Hin as [->|?]; done. }
  rewrite H. destruct (decide (id ∈ elements ids)) as [Hin|Hn],
    (decide (id ∈ ids)) as [Hin'|Hn']; try done.
  - by apply elem_of_elements in Hin.
  - by apply elem_of_elements in Hin'.
Qed.

Lemma session_start_wf : well_formed session_start.
Proof.
  split; cbn.
  - done.
  - by eexists.
  - intros id Hid. by apply not_elem_of_empty in Hid.
  - intros g [= <-]. split; [done|]. intros _. reflexivity.
Qed.

Lemma on_interrupted_wf r st : well_formed st → well_formed (on_interrupted r st).
Proof.
  intros [Hc [g Hg] Hs Hd]. unfold on_interrupted. rewrite Hc, Hg.
  split; cbn.
  - done.
  - by eexists.
  - intros id Hid. by apply not_elem_of_empty in Hid.
  - intros g' [= <-]. split; [done|]. intros _. apply target_restore_now.
Qed.

Lemma on_audio_wf r audioBase64 st :
  well_formed st → well_formed (on_audio r audioBase64 st).
Proof.
  intros [Hc [g Hg] Hs Hd]. unfold on_audio.
  destruct (decode_frame audioBase64) as [buf|].
  - split; cbn.
    + done.
    + rewrite Hg. by eexists.
    + intros id Hid. rewrite length_app. cbn.
      apply elem_of_union in Hid as [Hid|Hid].
      * apply elem_of_singleton in Hid. lia.
      * apply Hs in Hid. lia.
    + rewrite Hg. cbn. intros g' [= <-]. split.
      * intros _. apply target_duck.
      * intros He. exfalso.
        assert (Hin : length (sources st) ∈ ({[length (sources st)]} ∪ audioSourcesRef st : gset nat))
          by (apply elem_of_union_l, elem_of_singleton; done).
        rewrite He in Hin. by apply not_elem_of_empty in Hin.
  - split; cbn; [done|by eexists|done|done].
Qed.

Lemma on_ended_wf r source st :
  well_formed st → well_formed (on_ended r source st).
Proof.
  intros [Hc [g Hg] Hs Hd]. unfold on_ended.
  destruct (decide _) as [Hz|Hnz].
  - split; cbn.
    + done.
    + rewrite Hg. by eexists.
    + intros id Hid. apply Hs. by apply elem_of_difference in Hid as [? _].
    + rewrite Hg. cbn. intros g' [= <-]. split.
      * intros Hne. exfalso. apply Hne. apply leibniz_equiv, size_empty_inv, Hz.
      * intros _. apply target_restore.
  - split; cbn.
    + done.
    + by eexists.
    + intros id Hid. apply Hs. by apply elem_of_difference in Hid as [? _].
    + intros g' Hg'. destruct (Hd g' Hg') as [Hd1 _]. split.
      * intros _. apply Hd1. intros He. apply Hnz. rewrite He.
        rewrite empty_difference_L. apply size_empty.
      * intros He. exfalso. apply Hnz. rewrite He. apply size_empty.
Qed.

Lemma onmessage_wf r message st :
  well_formed st → well_formed (onmessage r message st).
Proof.
  intros Hwf. unfold onmessage.
  destruct (interrupted message); [by apply on_interrupted_wf|].
  destruct (inlineData message) as [[|c audioBase64]|]; try done.
  rewrite (wf_context st Hwf). by apply on_audio_wf.
Qed.

Lemma step_wf st e : well_formed st → well_formed (step st e).
Proof. destruct e; cbn; [apply onmessage_wf|apply on_ended_wf]. Qed.

Lemma run_wf evs st : well_formed st → well_formed (run evs st).
Proof.
  revert st. induction evs as [|e evs IH]; intros st Hwf; [done|].
  cbn. apply IH, step_wf, Hwf.
Qed.

Lemma reachable_wf st : reachable st → well_formed st.
Proof. intros [evs ->]. apply run_wf, session_start_wf. Qed.

(** C4.  In every state reached from the start of the session through the
    message and ['ended'] callbacks there is a gain, and the value its
    automation ends on is 0 when the set of active sources is not empty and
    the nominal 0.7 when it is empty. *)
Theorem ducking_invariant (evs : list event) :
  let st := run evs session_start in
  ∃ g, systemGainRef st = Some g
       ∧ (audioSourcesRef st ≠ ∅ → target g = 0)
       ∧ (audioSourcesRef st = ∅ → target g = nominal_gain)
       ∧ nominal_gain = 0.7.
Proof.
  intros st.
  destruct (run_wf evs session_start session_start_wf) as [_ [g Hg] _ Hd].
  fold st in Hg, Hd. exists g. split; [exact Hg|].
  destruct (Hd g Hg) as [H1 H2]. split; [exact H1|]. split; [exact H2|].
  reflexivity.
Qed.

(** C3.  When the gain and the contexts exist, handling a message with
    [interrupted] set stops every source of the active set, however many
    there are, leaves the set empty and the cursor at 0, and leaves on the
    gain the events that were before the current time followed by one value
    set to 0.7 at the current time: what was scheduled from now on is gone,
    and no ramp leads to the value. *)
Theorem interruption_clears_state
    (r : Readings) (message : LiveServerMessage) (st : App) (g : AudioParam) :
  interrupted message = true →
  systemGainRef st = Some g →
  audioContextRef st = true →
  (∀ id, id ∈ audioSourcesRef st → (id < length (sources st))%nat) →
  let st' := onmessage r message st in
  (∀ id, id ∈ audioSourcesRef st →
     ∃ s, sources st' !! id = Some s ∧ node_stopped s = true)
  ∧ audioSourcesRef st' = ∅
  ∧ nextStartTimeRef st' = 0
  ∧ ∃ g', systemGainRef st' = Some g'
          ∧ timeline g'
            = List.filter (before (in_now r)) (timeline g)
              ++ [{| ev_kind := SetValue; ev_value := 0.7;
                     ev_time := in_now r |}]
          ∧ (∀ e, e ∈ timeline g' → ev_kind e = LinearRamp →
                  ev_time e < in_now r)
          ∧ target g' = 0.7.
Proof.
  intros Hi Hg Hc Hs st'. unfold st', onmessage. rewrite Hi.
  unfold on_interrupted. rewrite Hg, Hc. cbn.
  split; [|split; [done|split; [done|]]].
  - intros id Hid. rewrite stop_all_lookup.
    destruct (decide _) as [_|Hn]; [|done].
    destruct (lookup_lt_is_Some_2 _ _ (Hs id Hid)) as [s Hsrc].
    rewrite Hsrc. cbn. by eexists.
  - eexists. split; [reflexivity|].
    unfold restore_now. rewrite set_after_cancel.
    split; [reflexivity|]. split.
    + intros e He Hk. apply elem_of_app in He as [He|He].
      * apply list_elem_of_In, filter_In in He as [_ He].
        unfold before in He. by destruct (Qlt_le_dec (ev_time e) (in_now r)).
      * apply list_elem_of_singleton in He. subst e. discriminate.
    + exact (target_restore_now r g).
Qed.

(** Witness of C4 while one source is active, at time 1. *)
Lemma ducking_invariant_witness :
  ∃ g, systemGainRef
         (run [Message (readings_at 1) (audio_message four_samples)]
              session_start) = Some g
       ∧ target g = 0.
Proof.
  destruct (ducking_invariant
              [Message (readings_at 1) (audio_message four_samples)])
    as (g & Hg & H1 & _).
  exists g. split; [exact Hg|]. apply H1.
  intros He.
  assert (Hin : 0%nat ∈ audioSourcesRef
            (run [Message (readings_at 1) (audio_message four_samples)]
                 session_start)) by (vm_compute; reflexivity).
  rewrite He in Hin. by apply not_elem_of_empty in Hin.
Defined.

(** Witness of C3: an interruption at time 2 while two sources are
    active. *)
Lemma interruption_clears_state_witness :
  let st := run [Message (readings_at 1) (audio_message four_samples);
                 Message (readings_at 1) (audio_message four_samples)]
                session_start in
  let st' := onmessage (readings_at 2) interruption st in
  audioSourcesRef st' = ∅ ∧ nextStartTimeRef st' = 0
  ∧ ∃ s0 s1, sources st' = [s0; s1]
             ∧ node_stopped s0 = true ∧ node_stopped s1 = true.
Proof.
  intros st st'.
  assert (Hwf : well_formed st) by (apply run_wf, session_start_wf).
  destruct (wf_gain st Hwf) as [g Hg].
  destruct (interruption_clears_state (readings_at 2) interruption st g
              eq_refl Hg (wf_context st Hwf) (wf_sources st Hwf))
    as (H1 & H2 & H3 & _).
  split; [exact H2|]. split; [exact H3|].
  eexists _, _. split; [vm_compute; reflexivity|]. split; reflexivity.
Defined.

(** *** The schedule of a run of frames *)

Lemma decodeAudioData_rate data rate c buf :
  decodeAudioData data rate c = inr buf → sampleRate buf = rate.
Proof.
  unfold decodeAudioData, createBuffer.
  destruct (new_Int16Array data) as [e|ints]; [discriminate|].
  destruct (_ || _); [discriminate|]. cbn. by intros [= <-].
Qed.

Lemma decode_frame_duration audioBase64 buf :
  decode_frame audioBase64 = Some buf →
  duration buf = inject_Z (Z.of_nat (buf_length buf)) / 24000
  ∧ 0 <= duration buf.
Proof.
  unfold decode_frame.
  destruct (decodeAudio audioBase64) as [data|]; [|discriminate].
  destruct (decodeAudioData data 24000 1) as [e|b] eqn:E; [discriminate|].
  intros [= <-]. apply decodeAudioData_rate in E.
  unfold duration. rewrite E. split; [reflexivity|].
  apply Qle_shift_div_l; [reflexivity|].
  rewrite Qmult_0_l. rewrite <- (Zle_Qle 0). lia.
Qed.

Lemma decode_frame_nonempty audioBase64 :
  is_Some (decode_frame audioBase64) → ∃ c rest, audioBase64 = c :: rest.
Proof.
  destruct audioBase64 as [|c rest]; [|by eexists _, _].
  intros [buf H]. vm_compute in H. discriminate.
Qed.

(** One decodable frame: a source is created at the start time, and the
    cursor is left at that time plus the duration of the frame. *)
Lemma onmessage_audio r audioBase64 buf st :
  audioContextRef st = true →
  decode_frame audioBase64 = Some buf →
  let st' := onmessage r (audio_message audioBase64) st in
  let start := start_time r (nextStartTimeRef st) in
  audioContextRef st' = true
  ∧ sources st' = sources st ++ [{| node_buffer := buf; node_when := start;
                                    node_stopped := false |}]
  ∧ nextStartTimeRef st' = start + duration buf.
Proof.
  intros Hc Hd.
  destruct (decode_frame_nonempty audioBase64) as (c & rest & ->); [by eexists|].
  unfold onmessage. cbn [interrupted inlineData audio_message].
  rewrite Hc. unfold on_audio. rewrite Hd. cbn. auto.
Qed.

Lemma play_frames_sources frames st :
  audioContextRef st = true →
  Forall (λ f, is_Some (decode_frame f.2)) frames →
  sources (play_frames frames st)
  = sources st ++ new_sources (nextStartTimeRef st) frames
  ∧ nextStartTimeRef (play_frames frames st)
    = final_cursor (nextStartTimeRef st) frames.
Proof.
  intros Hc Hf. revert st Hc.
  induction Hf as [|f frames [buf Hbuf] _ IH]; intros st Hc.
  - cbn. by rewrite app_nil_r.
  - cbn [play_frames fold_left new_sources final_cursor]. rewrite Hbuf.
    destruct (onmessage_audio f.1 f.2 buf st Hc Hbuf) as (Hc' & Hs & Hn).
    fold (play_frames frames (onmessage f.1 (audio_message f.2) st)).
    destruct (IH _ Hc') as [IH1 IH2].
    rewrite IH1, IH2, Hs, Hn. by rewrite <- app_assoc.
Qed.

Lemma new_sources_length cursor frames :
  Forall (λ f, is_Some (decode_frame f.2)) frames →
  length (new_sources cursor frames) = length frames.
Proof.
  intros Hf. revert cursor.
  induction Hf as [|f frames [buf Hbuf] _ IH]; intros cursor; [done|].
  cbn. rewrite Hbuf. cbn. by rewrite IH.
Qed.

Lemma new_sources_buffer cursor frames k n f :
  Forall (λ f, is_Some (decode_frame f.2)) frames →
  new_sources cursor frames !! k = Some n → frames !! k = Some f →
  decode_frame f.2 = Some (node_buffer n).
Proof.
  intros Hf. revert cursor k.
  induction Hf as [|f' frames [buf Hbuf] _ IH]; intros cursor k; [done|].
  cbn. rewrite Hbuf. destruct k as [|k]; cbn.
  - by intros [= <-] [= <-].
  - apply IH.
Qed.

Lemma new_sources_first cursor frames n f :
  Forall (λ f, is_Some (decode_frame f.2)) frames →
  new_sources cursor frames !! 0%nat = Some n → frames !! 0%nat = Some f →
  node_when n = start_time f.1 cursor.
Proof.
  intros Hf. destruct Hf as [|f' frames [buf Hbuf] _]; [done|].
  cbn. rewrite Hbuf. cbn. by intros [= <-] [= <-].
Qed.

(** [source.start] never gets a negative time. *)
Lemma start_time_nonneg r cursor : 0 <= out_now r → 0 <= start_time r cursor.
Proof. intros H. unfold start_time. destruct (Qlt_le_dec _ _); lra. Qed.

Lemma start_time_ge r cursor : cursor <= start_time r cursor.
Proof. unfold start_time. destruct (Qlt_le_dec _ _); lra. Qed.

Lemma new_sources_consecutive cursor frames k n1 n2 f2 :
  Forall (λ f, is_Some (decode_frame f.2)) frames →
  new_sources cursor frames !! k = Some n1 →
  new_sources cursor frames !! S k = Some n2 →
  frames !! S k = Some f2 →
  node_when n2 = start_time f2.1 (node_when n1 + duration (node_buffer n1))
  ∧ node_when n1 <= node_when n2.
Proof.
  intros Hf. revert cursor k.
  induction Hf as [|f frames [buf Hbuf] Hf IH]; intros cursor k; [done|].
  cbn [new_sources]. rewrite Hbuf. destruct k as [|k]; cbn.
  - intros [= <-] H2 Hf2. cbn.
    pose proof (new_sources_first _ _ _ _ Hf H2 Hf2) as ->.
    split; [reflexivity|].
    destruct (decode_frame_duration _ _ Hbuf) as [_ Hd].
    pose proof (start_time_ge f2.1 (start_time f.1 cursor + duration buf)). lra.
  - apply IH.
Qed.

Lemma new_sources_last cursor frames n :
  Forall (λ f, is_Some (decode_frame f.2)) frames →
  last (new_sources cursor frames) = Some n →
  final_cursor cursor frames = node_when n + duration (node_buffer n).
Proof.
  intros Hf. revert cursor.
  induction Hf as [|f frames [buf Hbuf] Hf IH]; intros cursor; [done|].
  cbn [new_sources final_cursor]. rewrite Hbuf.
  destruct frames as [|f' frames'].
  - cbn. by intros [= <-].
  - inversion Hf as [|? ? [buf' Hbuf'] ?]; subst.
    cbn [new_sources] in *. rewrite Hbuf' in *.
    rewrite last_cons_cons. apply IH.
Qed.

(** C2.  [N] frames that decode, handled one after the other, create [N]
    sources.  The first starts at the cursor, or 0.05 s after the current
    time of the output context when the cursor is behind it.  Each next one
    starts no earlier than the one before; it starts at the start of the
    one before plus its duration, except when that time is behind the
    current time (an idle gap), where it starts at the current time plus
    0.05 s.  A frame of [n] samples lasts [n / 24000], and after the frames
    the cursor is the last start plus the last duration. *)
Theorem scheduling_monotone
    (frames : list (Readings * jsstring)) (st : App) :
  audioContextRef st = true →
  Forall (λ f, is_Some (decode_frame f.2)) frames →
  let st' := play_frames frames st in
  ∃ new : list BufferSourceNode,
    sources st' = sources st ++ new
    ∧ length new = length frames
    ∧ (∀ k n f, new !! k = Some n → frames !! k = Some f →
         decode_frame f.2 = Some (node_buffer n)
         ∧ duration (node_buffer n)
           = inject_Z (Z.of_nat (buf_length (node_buffer n))) / 24000)
    ∧ (∀ n f, new !! 0%nat = Some n → frames !! 0%nat = Some f →
         node_when n
         = if Qlt_le_dec (nextStartTimeRef st) (out_now f.1)
           then out_now f.1 + 0.05 else nextStartTimeRef st)
    ∧ (∀ k n1 n2 f2,
         new !! k = Some n1 → new !! S k = Some n2 → frames !! S k = Some f2 →
         node_when n1 <= node_when n2
         ∧ node_when n2
           = if Qlt_le_dec (node_when n1 + duration (node_buffer n1))
                           (out_now f2.1)
             then out_now f2.1 + 0.05
             else node_when n1 + duration (node_buffer n1))
    ∧ (∀ n, last new = Some n →
         nextStartTimeRef st' = node_when n + duration (node_buffer n)).
Proof.
  intros Hc Hf st'.
  destruct (play_frames_sources frames st Hc Hf) as [Hs Hn]. fold st' in Hs, Hn.
  exists (new_sources (nextStartTimeRef st) frames).
  split; [exact Hs|]. split; [by apply new_sources_length|].
  split; [|split; [|split]].
  - intros k n f Hk Hfk.
    pose proof (new_sources_buffer _ _ _ _ _ Hf Hk Hfk) as Hb.
    split; [exact Hb|]. by destruct (decode_frame_duration _ _ Hb).
  - intros n f H0 Hf0. by apply (new_sources_first _ frames).
  - intros k n1 n2 f2 H1 H2 Hf2.
    destruct (new_sources_consecutive _ _ _ _ _ _ Hf H1 H2 Hf2) as [Hw Hle].
    split; [exact Hle|exact Hw].
  - intros n Hl. rewrite Hn. by apply new_sources_last.
Qed.

(** Witness of C2: three frames of four samples arriving together at
    time 1 are scheduled back to back from 1.05. *)
Lemma scheduling_monotone_witness :
  let frames := [(readings_at 1, four_samples); (readings_at 1, four_samples);
                 (readings_at 1, four_samples)] in
  ∃ n0 n1 n2,
    sources (play_frames frames session_start) = [n0; n1; n2]
    ∧ node_when n0 = 1 + 0.05
    ∧ node_when n0 <= node_when n1 ∧ node_when n1 <= node_when n2.
Proof.
  intros frames.
  assert (Hf : Forall (λ f, is_Some (decode_frame f.2)) frames).
  { repeat constructor; cbn; eexists; vm_compute; reflexivity. }
  destruct (scheduling_monotone frames session_start eq_refl Hf)
    as (new & Hs & Hlen & _ & H0 & Hk & _).
  destruct new as [|n0 [|n1 [|n2 [|? ?]]]]; try discriminate.
  exists n0, n1, n2. split; [exact Hs|]. split.
  - apply (H0 n0 (readings_at 1, four_samples)); reflexivity.
  - split.
    + apply (Hk 0%nat n0 n1 (readings_at 1, four_samples)); reflexivity.
    + apply (Hk 1%nat n1 n2 (readings_at 1, four_samples)); reflexivity.
Defined.

(** After an interruption the cursor is at 0: the next frame starts 0.05 s
    after the current time, whatever was scheduled before. *)
Lemma start_after_interruption r r' message st :
  interrupted message = true → 0 < out_now r' →
  start_time r' (nextStartTimeRef (onmessage r message st)) = out_now r' + 0.05.
Proof.
  intros Hi Hpos. unfold onmessage. rewrite Hi. cbn. unfold start_time.
  by destruct (Qlt_le_dec 0 (out_now r')); [|lra].
Qed.

End PlaybackProofs.

(* ===================================================================== *)
(** ** More on the codec                                                  *)
(* ===================================================================== *)

Module CodecMore.
Import Host Codec CodecProofs.
#[local] Open Scope N_scope.

Lemma b64encode_length s :
  length (b64encode s) = (4 * ((length s + 2) / 3))%nat.
Proof.
  induction s as [|a|a b|a b c l IH] using list_ind3; try reflexivity.
  cbn [b64encode length]. cbv zeta. cbn [length]. rewrite IH.
  replace (S (S (S (length l))) + 2)%nat with (length l + 2 + 1 * 3)%nat by lia.
  rewrite Nat.div_add by lia. lia.
Qed.

Lemma b64encode_alphabet s :
  Forall (λ x, x < 256) s →
  Forall (λ c, is_Some (b64index c) ∨ c = pad) (b64encode s).
Proof.
  intros Hs. rewrite b64encode_split. apply Forall_app. split.
  - apply Forall_map. eapply Forall_impl; [apply groups_bounded, Hs|].
    intros x Hx. left. rewrite b64index_char by done. by eexists.
  - destruct (groups_shape s) as [k [[-> _]|[[-> _]|[-> _]]]];
      repeat constructor; by right.
Qed.

(** X1.  The text that [encodeAudio] returns for [n] bytes has
    [4 * ceil(n / 3)] characters, each a letter, a digit, [+], [/] or the
    padding [=]. *)
Theorem encodeAudio_text_shape (B : list byte) :
  ∃ t, encodeAudio B = Some t
       ∧ length t = (4 * ((length B + 2) / 3))%nat
       ∧ Forall (λ c, is_Some (b64index c) ∨ c = 61) t.
Proof.
  exists (b64encode (fromCharCode B)). split; [apply encodeAudio_value|]. split.
  - rewrite b64encode_length. unfold fromCharCode. by rewrite length_map.
  - apply b64encode_alphabet, fromCharCode_octets.
Qed.

(** X2.  Two buffers with the same encoding are the same buffer. *)
Theorem encodeAudio_injective (B1 B2 : list byte) :
  encodeAudio B1 = encodeAudio B2 → B1 = B2.
Proof.
  rewrite !encodeAudio_value. intros [= E].
  pose proof (decodeAudio_encoded B1) as H1. rewrite E in H1.
  rewrite decodeAudio_encoded in H1. by injection H1.
Qed.

Lemma encodeAudio_injective_witness :
  encodeAudio [x01; x02] = encodeAudio [x01; x02] ∧ [x01; x02] = [x01; x02].
Proof.
  split; [reflexivity|]. apply (encodeAudio_injective [x01; x02] [x01; x02]).
  reflexivity.
Defined.

Lemma strip_padding_keeps (x : N) (data : list N) :
  x ∈ data → (x =? pad) = false → x ∈ strip_padding data.
Proof.
  intros Hx Hne. unfold strip_padding.
  destruct (rev data) as [|c1 r1] eqn:E; [done|].
  destruct (N.eqb_spec c1 pad) as [->|_]; [|done].
  assert (Hd : data = rev r1 ++ [pad]).
  { rewrite <- (rev_involutive data), E. reflexivity. }
  rewrite Hd in Hx. apply elem_of_app in Hx as [Hx|Hx].
  2:{ apply list_elem_of_singleton in Hx. subst x. by rewrite N.eqb_refl in Hne. }
  destruct r1 as [|c2 r2]; [done|].
  destruct (N.eqb_spec c2 pad) as [->|_]; [|done].
  cbn [rev] in Hx. apply elem_of_app in Hx as [Hx|Hx]; [done|].
  apply list_elem_of_singleton in Hx. subst x. by rewrite N.eqb_refl in Hne.
Qed.

Lemma sextets_rejects (x : N) (data : list N) :
  x ∈ data → b64index x = None → sextets data = None.
Proof.
  induction 1 as [x l|x y l _ IH]; intros Hx; cbn.
  - by rewrite Hx.
  - rewrite IH by done. by destruct (b64index y).
Qed.

(** X3.  A text holding a character that is neither of the base64
    alphabet, nor [=], nor ASCII whitespace makes [decodeAudio] throw,
    wherever the character stands. *)
Theorem decodeAudio_rejects_foreign_character (text : list N) (c : N) :
  c ∈ text → b64index c = None → c ≠ 61 → is_ascii_whitespace c = false →
  decodeAudio text = None.
Proof.
  intros Hin Hidx Hpad Hws.
  assert (Hne : (c =? pad) = false) by (by apply N.eqb_neq).
  assert (H1 : c ∈ strip_whitespace text).
  { unfold strip_whitespace. apply list_elem_of_In, filter_In.
    split; [by apply list_elem_of_In|]. by rewrite Hws. }
  unfold decodeAudio, atob. cbv zeta.
  match goal with |- context [sextets ?d] => set (data := d) end.
  assert (H2 : c ∈ data).
  { unfold data. destruct (_ =? 0); [by apply strip_padding_keeps|done]. }
  rewrite (sextets_rejects c data H2 Hidx). by destruct (_ =? 1).
Qed.

Lemma decodeAudio_rejects_foreign_character_witness :
  decodeAudio [65; 65; 42; 65] = None.
Proof.
  apply (decodeAudio_rejects_foreign_character [65; 65; 42; 65] 42).
  - set_solver.
  - reflexivity.
  - discriminate.
  - reflexivity.
Defined.

End CodecMore.

(* ===================================================================== *)
(** ** More on the PCM frame builder and on the inbound decoder           *)
(* ===================================================================== *)

Module PcmMore.
Import Host Codec Float Pcm FloatProofs CodecProofs PcmProofs.
#[local] Open Scope Q_scope.

Lemma wrap16_range n : (-32768 <= wrap16 n <= 32767)%Z.
Proof.
  unfold wrap16. cbv zeta.
  destruct (Z.ltb_spec (n mod 65536) 32768); div_lia.
Qed.

Lemma toPcm16_sample_range x : (-32768 <= toPcm16_sample x <= 32767)%Z.
Proof.
  unfold toPcm16_sample.
  destruct (if flt _ _ then _ else _); cbn [ToInt16]; [apply wrap16_range|lia..].
Qed.

Lemma int16_elements_bytes l :
  Forall (λ n, (-32768 <= n <= 32767)%Z) l →
  int16_elements (buffer_of_Int16Array l) = l.
Proof.
  unfold buffer_of_Int16Array. induction 1 as [|n l Hn _ IH]; [done|].
  cbn [flat_map]. pose proof (int16_bytes_roundtrip n Hn) as H.
  unfold int16_bytes in *. cbv zeta in *. cbn [app int16_elements] in *.
  injection H as H. by rewrite H, IH.
Qed.

Lemma buffer_of_Int16Array_length l :
  length (buffer_of_Int16Array l) = (2 * length l)%nat.
Proof.
  unfold buffer_of_Int16Array. induction l as [|n l IH]; [done|].
  cbn [flat_map]. rewrite length_app, IH. cbn. lia.
Qed.

Lemma even_double n : Nat.even (2 * n) = true.
Proof. rewrite Nat.even_mul. reflexivity. Qed.

Lemma createPcmBlob_parts (data : list float) :
  ∃ blob,
    createPcmBlob data = Some blob
    ∧ decodeAudio (blob_data blob)
      = Some (buffer_of_Int16Array (map toPcm16_sample data))
    ∧ length (buffer_of_Int16Array (map toPcm16_sample data))
      = (2 * length data)%nat
    ∧ int16_elements (buffer_of_Int16Array (map toPcm16_sample data))
      = map toPcm16_sample data.
Proof.
  unfold createPcmBlob. rewrite encodeAudio_value. eexists.
  split; [reflexivity|]. cbn [blob_data].
  split; [apply decodeAudio_encoded|]. split.
  - by rewrite buffer_of_Int16Array_length, length_map.
  - apply int16_elements_bytes, Forall_map, Forall_forall.
    intros x _. apply toPcm16_sample_range.
Qed.

(** X4.  [createPcmBlob] returns a blob for every block, also one holding
    NaN or infinities; the blob is tagged [audio/pcm;rate=16000] and its
    text decodes to two bytes for each sample, the little-endian 16-bit
    values of the samples in order. *)
Theorem createPcmBlob_decodes (data : list float) :
  ∃ blob,
    createPcmBlob data = Some blob
    ∧ mimeType blob = "audio/pcm;rate=16000"%string
    ∧ decodeAudio (blob_data blob)
      = Some (buffer_of_Int16Array (map toPcm16_sample data))
    ∧ length (buffer_of_Int16Array (map toPcm16_sample data))
      = (2 * length data)%nat
    ∧ int16_elements (buffer_of_Int16Array (map toPcm16_sample data))
      = map toPcm16_sample data.
Proof.
  unfold createPcmBlob. rewrite encodeAudio_value. eexists.
  split; [reflexivity|]. cbn [mimeType blob_data]. split; [reflexivity|].
  split; [apply decodeAudio_encoded|]. split.
  - by rewrite buffer_of_Int16Array_length, length_map.
  - apply int16_elements_bytes, Forall_map, Forall_forall.
    intros x _. apply toPcm16_sample_range.
Qed.

(** With one channel the buffer holds every element, in order. *)
Lemma decodeAudioData_mono data rate :
  let ints := int16_elements data in
  Nat.even (length data) = true →
  8000 <= rate → rate <= 96000 →
  (1 ≤ length ints)%nat → (Z.of_nat (length ints) < 4294967296)%Z →
  decodeAudioData data rate 1
  = inr {| numberOfChannels := 1; buf_length := length ints;
           sampleRate := rate;
           channelData := [map (λ v, Fin (inject_Z v / 32768)) ints] |}.
Proof.
  intros ints Heven Hlo Hhi Hn Hlen.
  rewrite decodeAudioData_ok; fold ints; rewrite ?Nat.div_1_r; try done; try lia.
  do 2 f_equal. cbn [seq map]. f_equal.
  apply list_eq. intros i.
  destruct (decide (i < length ints)%nat) as [Hi|Hi].
  - rewrite ArrayProofs.lookup_map_seq by done.
    destruct (lookup_lt_is_Some_2 ints i Hi) as [v Hv].
    change (map ?f ?l) with (fmap (M:=list) f l).
    rewrite list_lookup_fmap, Hv. cbn. unfold sample_at.
    replace (i * 1 + 0)%nat with i by lia. by rewrite Hv.
  - rewrite !lookup_ge_None_2; [done|rewrite length_map; lia|].
    rewrite length_map, length_seq. lia.
Qed.

Lemma toPcm16_error q :
  -1 <= q → q <= 1 →
  Qabs (inject_Z (toPcm16_sample (Fin q)) / 32768 - q) < 2 # 32768.
Proof.
  intros Hlo Hhi. unfold Qdiv. change (/ 32768) with (1 # 32768).
  apply Qabs_Qlt_condition.
  destruct (Qlt_le_dec q 0) as [Hneg|Hpos].
  - rewrite toPcm16_negative, Qtrunc_nonpos by lra.
    pose proof (Qle_ceiling (q * 32768)).
    pose proof (Qceiling_pred_lt (q * 32768)). split; lra.
  - rewrite toPcm16_nonneg, Qtrunc_nonneg by lra.
    pose proof (Qfloor_le (q * 32767)).
    pose proof (Qfloor_succ_gt (q * 32767)). split; lra.
Qed.

(** X5.  A non-empty block sent through [createPcmBlob], [decodeAudio] and
    [decodeAudioData] with one channel comes back as one channel of as
    many samples: sample [i] is the 16-bit value stored for sample [i] of
    the block over 32768, and when that sample is finite and in [-1, 1] it
    is less than 2/32768 away from it. *)
Theorem pcm_block_roundtrip (data : list float) (rate : Q) :
  data ≠ [] → (Z.of_nat (length data) < 4294967296)%Z →
  8000 <= rate → rate <= 96000 →
  ∃ blob bytes buf,
    createPcmBlob data = Some blob
    ∧ decodeAudio (blob_data blob) = Some bytes
    ∧ decodeAudioData bytes rate 1 = inr buf
    ∧ buf_length buf = length data
    ∧ channelData buf
      = [map (λ x, Fin (inject_Z (toPcm16_sample x) / 32768)) data]
    ∧ ∀ i q, data !! i = Some (Fin q) → -1 <= q → q <= 1 →
        ∃ v, channelData buf !! 0%nat ≫= (.!! i) = Some (Fin v)
             ∧ Qabs (v - q) < 2 # 32768.
Proof.
  intros Hne Hlen Hlo Hhi.
  destruct (createPcmBlob_parts data) as (blob & Hb & Hd & Hl & Hi).
  exists blob, (buffer_of_Int16Array (map toPcm16_sample data)).
  eexists. split; [exact Hb|]. split; [exact Hd|].
  assert (Hn : (1 ≤ length data)%nat) by (destruct data; [done|cbn; lia]).
  rewrite decodeAudioData_mono; rewrite ?Hi, ?Hl, ?length_map;
    try done; try apply even_double.
  split; [reflexivity|]. cbn [buf_length channelData].
  split; [done|]. split; [by rewrite map_map|].
  intros i q Hq H1 H2. eexists. split.
  - cbn. change (map ?f ?l) with (fmap (M:=list) f l).
    rewrite !list_lookup_fmap, Hq. reflexivity.
  - by apply toPcm16_error.
Qed.

Lemma pcm_block_roundtrip_witness :
  ∃ blob bytes buf,
    createPcmBlob [Fin (1 # 2); Fin (-1 # 4)] = Some blob
    ∧ decodeAudio (blob_data blob) = Some bytes
    ∧ decodeAudioData bytes 24000 1 = inr buf
    ∧ buf_length buf = 2%nat.
Proof.
  destruct (pcm_block_roundtrip [Fin (1 # 2); Fin (-1 # 4)] 24000)
    as (blob & bytes & buf & H1 & H2 & H3 & H4 & _).
  - discriminate.
  - cbn. lia.
  - vm_compute. discriminate.
  - vm_compute. discriminate.
  - exists blob, bytes, buf. auto.
Defined.

(** *** The stored value grows with the sample *)

Lemma toPcm16_cases q :
  (q < -1 ∧ toPcm16_sample (Fin q) = (-32768)%Z)
  ∨ (-1 <= q ∧ q < 0 ∧ toPcm16_sample (Fin q) = Qceiling (q * 32768))
  ∨ (0 <= q ∧ q <= 1 ∧ toPcm16_sample (Fin q) = Qfloor (q * 32767))
  ∨ (1 < q ∧ toPcm16_sample (Fin q) = 32767%Z).
Proof.
  destruct (Qlt_le_dec q (-1)); [left; split; [done|by apply toPcm16_below]|].
  destruct (Qlt_le_dec q 0).
  { right; left. rewrite toPcm16_negative, Qtrunc_nonpos by lra. done. }
  destruct (Qlt_le_dec 1 q); [do 3 right; split; [done|by apply toPcm16_above]|].
  right; right; left. rewrite toPcm16_nonneg, Qtrunc_nonneg by lra. done.
Qed.

Lemma toPcm16_monotone_finite p q :
  p <= q → (toPcm16_sample (Fin p) <= toPcm16_sample (Fin q))%Z.
Proof.
  intros Hpq.
  pose proof (toPcm16_sample_range (Fin p)) as Rp.
  pose proof (toPcm16_sample_range (Fin q)) as Rq.
  destruct (toPcm16_cases p) as [[Hp Ep]|[(Hp1 & Hp2 & Ep)|[(Hp1 & Hp2 & Ep)|[Hp Ep]]]];
  destruct (toPcm16_cases q) as [[Hq Eq]|[(Hq1 & Hq2 & Eq)|[(Hq1 & Hq2 & Eq)|[Hq Eq]]]];
    try lra; try lia.
  - rewrite Ep, Eq. apply Qceiling_resp_le. lra.
  - rewrite Ep, Eq.
    assert ((Qceiling (p * 32768) <= 0)%Z)
      by (rewrite <- (Qceiling_Z 0); apply Qceiling_resp_le; unfold inject_Z; lra).
    assert ((0 <= Qfloor (q * 32767))%Z)
      by (rewrite <- (Qfloor_Z 0); apply Qfloor_resp_le; unfold inject_Z; lra).
    lia.
  - rewrite Ep, Eq. apply Qfloor_resp_le. lra.
Qed.

(** X6.  The 16-bit value stored by [createPcmBlob] never decreases when
    the sample grows, infinities included: [x < y] gives
    [toPcm16_sample x <= toPcm16_sample y]. *)
Theorem toPcm16_monotone (x y : float) :
  flt x y = true → (toPcm16_sample x <= toPcm16_sample y)%Z.
Proof.
  pose proof (toPcm16_sample_range x) as Rx.
  pose proof (toPcm16_sample_range y) as Ry.
  assert (Ep : toPcm16_sample PInf = 32767%Z) by reflexivity.
  assert (En : toPcm16_sample NInf = (-32768)%Z) by reflexivity.
  destruct x as [p| | |], y as [q| | |]; cbn [flt]; try discriminate;
    rewrite ?Ep, ?En in *; try (intros _; lia).
  destruct (Qlt_le_dec p q) as [Hpq|Hpq]; [|discriminate].
  intros _. apply toPcm16_monotone_finite. lra.
Qed.

Lemma toPcm16_monotone_witness :
  (toPcm16_sample (Fin (-1 # 3)) <= toPcm16_sample (Fin (1 # 7)))%Z.
Proof. apply toPcm16_monotone. reflexivity. Defined.

(** *** When the inbound decoder throws *)

Lemma int16_elements_length data :
  length (int16_elements data) = (length data / 2)%nat.
Proof.
  induction data as [|a|a b l IH] using list_ind2; try reflexivity.
  cbn [int16_elements length]. rewrite IH.
  replace (S (S (length l))) with (length l + 1 * 2)%nat by lia.
  rewrite Nat.div_add by lia. lia.
Qed.

(** The conditions under which [createBuffer] takes the frame. *)
Definition decodable (data : list byte) (rate : Q) (c : nat) : bool :=
  Nat.even (length data) && (1 <=? c)%nat && (c <=? 32)%nat
  && (c <=? length data / 2)%nat && Qle_bool 8000 rate && Qle_bool rate 96000.

Lemma decodable_ok data rate c :
  (Z.of_nat (length data) < 4294967296)%Z →
  decodable data rate c = true →
  decodeAudioData data rate c
  = inr {| numberOfChannels := c;
           buf_length := (length (int16_elements data) / c)%nat;
           sampleRate := rate;
           channelData :=
             map (λ ch, map (λ i, sample_at (int16_elements data) (i * c + ch)%nat)
                            (seq 0 (length (int16_elements data) / c)))
                 (seq 0 c) |}.
Proof.
  intros Hlen. unfold decodable. rewrite !andb_true_iff, !Nat.leb_le.
  intros [[[[[He H1] H32] Hc] Hlo] Hhi].
  apply Qle_bool_iff in Hlo, Hhi.
  pose proof (Nat.Div0.div_le_upper_bound (length data) 2 (length data) ltac:(lia)).
  assert (Hf : (1 ≤ length (int16_elements data) / c)%nat).
  { rewrite int16_elements_length. apply Nat.div_le_lower_bound; lia. }
  assert (Hfu : (length (int16_elements data) / c ≤ length data)%nat).
  { rewrite int16_elements_length. apply Nat.Div0.div_le_upper_bound. nia. }
  apply decodeAudioData_ok; try done; lia.
Qed.

Lemma not_decodable_throws data rate c :
  Nat.even (length data) = true → decodable data rate c = false →
  decodeAudioData data rate c = inl NotSupportedError.
Proof.
  intros He. unfold decodable. rewrite He. cbn [andb]. intros Hno.
  unfold decodeAudioData, new_Int16Array. rewrite He. cbv zeta.
  unfold createBuffer. cbv zeta.
  destruct (Nat.eqb_spec c 0) as [->|Hc0]; [done|].
  destruct (Nat.ltb_spec 32 c) as [H32|H32]; [done|].
  cbn [orb].
  destruct (Nat.leb_spec 1 c) as [_|?]; [|lia].
  destruct (Nat.leb_spec c 32) as [_|?]; [|lia].
  cbn [andb] in Hno.
  destruct (Nat.leb_spec c (length data / 2)) as [Hc|Hc].
  - cbn [andb] in Hno. rewrite Hno. by rewrite orb_true_r.
  - rewrite <- Zdiv_Qdiv, <- Nat2Z.inj_div, int16_elements_length.
    rewrite Nat.div_small by lia. reflexivity.
Qed.

(** X7.  What [decodeAudioData] does with a buffer (shorter than 2^32
    bytes), for up to 32 channels and a rate in 8000..96000: RangeError
    exactly for an odd byte length; else NotSupportedError exactly when
    there is no channel or there are fewer elements than channels (so also
    for an empty buffer); else a buffer of [c] channels and
    [floor(elements / c)] frames. *)
Theorem decodeAudioData_outcome (data : list byte) (rate : Q) (c : nat) :
  (Z.of_nat (length data) < 4294967296)%Z →
  8000 <= rate → rate <= 96000 → (c ≤ 32)%nat →
  match decodeAudioData data rate c with
  | inl RangeError => Nat.even (length data) = false
  | inl NotSupportedError =>
      Nat.even (length data) = true ∧ (c = 0%nat ∨ (length data / 2 < c)%nat)
  | inr buf =>
      Nat.even (length data) = true
      ∧ (1 ≤ c ≤ length data / 2)%nat
      ∧ numberOfChannels buf = c
      ∧ buf_length buf = (length data / 2 / c)%nat
  end.
Proof.
  intros Hlen Hlo Hhi H32. destruct (Nat.even (length data)) eqn:He.
  - destruct (decodable data rate c) eqn:Hd.
    + rewrite decodable_ok by done. cbn [numberOfChannels buf_length].
      rewrite int16_elements_length.
      unfold decodable in Hd. rewrite !andb_true_iff, !Nat.leb_le in Hd.
      destruct Hd as [[[[[_ ?] ?] ?] _] _].
      split; [done|]. split; [lia|done].
    + rewrite not_decodable_throws by done. split; [done|].
      unfold decodable in Hd. rewrite He in Hd.
      rewrite (proj2 (Qle_bool_iff _ _) Hlo), (proj2 (Qle_bool_iff _ _) Hhi) in Hd.
      rewrite !andb_true_r in Hd. cbn [andb] in Hd.
      destruct (Nat.leb_spec 1 c); [|lia].
      destruct (Nat.leb_spec c 32); [|lia].
      destruct (Nat.leb_spec c (length data / 2)); [discriminate|lia].
  - unfold decodeAudioData, new_Int16Array. by rewrite He.
Qed.

Lemma decodeAudioData_outcome_witness :
  Nat.even (length (@nil byte)) = true
  ∧ (1%nat = 0%nat ∨ (length (@nil byte) / 2 < 1)%nat).
Proof.
  pose proof (decodeAudioData_outcome [] 24000 1 ltac:(cbn; lia)
                ltac:(vm_compute; discriminate) ltac:(vm_compute; discriminate)
                ltac:(lia)) as H1.
  assert (E : decodeAudioData [] 24000 1 = inl NotSupportedError)
    by (vm_compute; reflexivity).
  rewrite E in H1. exact H1.
Defined.

Lemma decoded_is_decodable data rate c buf :
  decodeAudioData data rate c = inr buf → decodable data rate c = true.
Proof.
  intros H. destruct (Nat.even (length data)) eqn:He.
  - destruct (decodable data rate c) eqn:Hd; [done|].
    rewrite not_decodable_throws in H by done. discriminate.
  - unfold decodeAudioData, new_Int16Array in H. rewrite He in H. discriminate.
Qed.




End PcmMore.

(* ===================================================================== *)
(** ** More on the resampler                                              *)
(* ===================================================================== *)

Module ResamplerMore.
Import Host Float Pcm Resampler FloatProofs ResamplerProofs.
#[local] Open Scope Q_scope.





(** X11.  With a rate that is zero or negative the resampler never
    produces a sample: the result array cannot be built (RangeError) or is
    empty. *)
Theorem downsample_nonpositive_rate (buffer : list float) (r : Q) :
  r <= 0 →
  downsampleTo16k buffer r = inl RangeError ∨ downsampleTo16k buffer r = inr [].
Proof.
  intros Hr. unfold downsampleTo16k.
  destruct (Qeq_bool r 16000) eqn:E; [apply Qeq_bool_iff in E; lra|].
  cbv zeta. unfold newLength.
  destruct (Qeq_bool (r / 16000) 0) eqn:E0.
  - destruct (length buffer =? 0)%nat; [right; reflexivity|left; reflexivity].
  - assert (Hratio : r / 16000 < 0).
    { apply Qeq_bool_neq in E0. unfold Qdiv in *.
      change (/ 16000) with (1 # 16000) in *. lra. }
    set (ratio := r / 16000) in *.
    set (x := inject_Z (Z.of_nat (length buffer)) / ratio).
    assert (Hx : x <= 0).
    { assert (Hy : x * ratio == inject_Z (Z.of_nat (length buffer)))
        by (unfold x; field; lra).
      assert (0 <= inject_Z (Z.of_nat (length buffer)))
        by (rewrite <- (Zle_Qle 0); lia).
      clearbody x. nra. }
    assert (Hn : (Math_round x <= 0)%Z).
    { unfold Math_round. rewrite <- (Qfloor_Z 0).
      transitivity (Qfloor (1 # 2)); [apply Qfloor_resp_le; lra|].
      vm_compute. discriminate. }
    unfold new_Float32Array.
    destruct (Z.ltb_spec (Math_round x) 0); [by left|].
    right. replace (Math_round x) with 0%Z by lia. reflexivity.
Qed.

Lemma downsample_nonpositive_rate_witness :
  downsampleTo16k [Fin 1; Fin 1] 0 = inl RangeError
  ∨ downsampleTo16k [Fin 1; Fin 1] 0 = inr [].
Proof.
  apply (downsample_nonpositive_rate [Fin 1; Fin 1] 0). vm_compute. discriminate.
Defined.

(** *** Whole multiples of 16000 *)

Lemma multiple_ratio (k : nat) :
  16000 * inject_Z (Z.of_nat k) / 16000 == inject_Z (Z.of_nat k).
Proof. field. Qed.

Lemma multiple_position (k i : nat) :
  originalIndex (16000 * inject_Z (Z.of_nat k) / 16000) i
  == inject_Z (Z.of_nat (i * k)).
Proof.
  unfold originalIndex. rewrite multiple_ratio.
  by rewrite Nat2Z.inj_mul, inject_Z_mult.
Qed.

(** X12.  When the rate is [k] times 16000 for a whole [k >= 2], the
    resampler only picks every [k]-th sample: output [i] is the input
    sample [i * k] when that sample is finite (nothing in between is
    averaged in), and NaN when it is infinite or NaN. *)
Theorem downsample_whole_ratio_decimates (buffer : list float) (k : nat) :
  (2 ≤ k)%nat →
  ∃ out,
    downsampleTo16k buffer (16000 * inject_Z (Z.of_nat k)) = inr out
    ∧ ∀ i x, out !! i = Some x →
        ∃ a, buffer !! (i * k)%nat = Some a
             ∧ match a with
               | Fin q => ∃ q', x = Fin q' ∧ q' == q
               | _ => x = NaN
               end.
Proof.
  intros Hk. set (r := 16000 * inject_Z (Z.of_nat k)).
  assert (HK : 2 <= inject_Z (Z.of_nat k)) by (rewrite <- (Zle_Qle 2); lia).
  assert (Hr : 0 < r) by (unfold r; lra).
  assert (Hne : ¬ r == 16000) by (unfold r; lra).
  destruct (downsampleTo16k_value buffer r Hr Hne) as [Hn Hv].
  cbv zeta in Hn, Hv. eexists. split; [exact Hv|].
  intros i x Hx.
  assert (Hi : (i < Z.to_nat (Math_round
                  (inject_Z (Z.of_nat (length buffer)) / (r / 16000))))%nat).
  { apply lookup_lt_Some in Hx. by rewrite length_map, length_seq in Hx. }
  rewrite ArrayProofs.lookup_map_seq in Hx by done. injection Hx as <-.
  assert (Hlen : (1 ≤ length buffer)%nat).
  { destruct buffer; [|cbn; lia]. exfalso. cbn [length] in Hi.
    assert (Math_round (inject_Z (Z.of_nat 0) / (r / 16000)) = 0%Z) as E0.
    { unfold Math_round. rewrite (Qfloor_comp _ (1 # 2)); [reflexivity|].
      unfold Qdiv. change (inject_Z (Z.of_nat 0)) with 0. ring. }
    rewrite E0 in Hi. cbn in Hi. lia. }
  destruct (indices_inside (length buffer) i (r / 16000) Hlen (ratio_pos r Hr))
    as [H1 H2]; [lia|].
  assert (E1 : index1 (r / 16000) i = Z.of_nat (i * k)).
  { unfold index1, r. rewrite (Qfloor_comp _ _ (multiple_position k i)).
    apply Qfloor_Z. }
  assert (E2 : index2 (r / 16000) (length buffer) i = Z.of_nat (i * k)).
  { unfold index1 in H1. unfold index2 in *. unfold r in *.
    rewrite (Qceiling_comp _ _ (multiple_position k i)) in *.
    rewrite (Qfloor_comp _ _ (multiple_position k i)) in H1.
    rewrite Qceiling_Z. rewrite Qfloor_Z in H1. lia. }
  assert (Ew : weight (r / 16000) i == 0).
  { unfold weight. rewrite E1. unfold r. rewrite (multiple_position k i). ring. }
  destruct (lookup_lt_is_Some_2 buffer (i * k)) as [a Ha]; [lia|].
  exists a. split; [exact Ha|].
  unfold interpolate, read. rewrite E1, E2, Nat2Z.id, Ha.
  destruct (Z.ltb_spec (Z.of_nat (i * k)) 0); [lia|].
  set (w := weight (r / 16000) i) in *.
  assert (Ew0 : Qeq_bool w 0 = true) by (by apply Qeq_bool_iff).
  assert (Ew1 : Qeq_bool (1 - w) 0 = false).
  { destruct (Qeq_bool (1 - w) 0) eqn:E; [|done].
    apply Qeq_bool_iff in E. lra. }
  destruct a as [q| | |]; cbn [fmul fadd].
  - eexists. split; [reflexivity|]. ring.
  - unfold inf_times. rewrite Ew0, Ew1. by destruct (Qlt_le_dec 0 (1 - w)).
  - unfold inf_times. rewrite Ew0, Ew1. by destruct (Qlt_le_dec 0 (1 - w)).
  - reflexivity.
Qed.

Lemma downsample_whole_ratio_decimates_witness :
  ∃ out, downsampleTo16k [Fin 1; Fin 2; Fin 3; Fin 4; Fin 5; Fin 6]
                         (16000 * inject_Z (Z.of_nat 3)) = inr out.
Proof.
  destruct (downsample_whole_ratio_decimates
              [Fin 1; Fin 2; Fin 3; Fin 4; Fin 5; Fin 6] 3 ltac:(lia))
    as (out & H & _).
  exists out. exact H.
Defined.

End ResamplerMore.

(* ===================================================================== *)
(** ** More on the playback scheduler                                     *)
(* ===================================================================== *)

Module PlaybackMore.
Import Host Codec Float Pcm Playback PcmProofs PcmMore PlaybackProofs.
#[local] Open Scope Q_scope.

(** *** One frame *)

Lemma even_half n : Nat.even n = true → (2 * (n / 2))%nat = n.
Proof.
  intros He. apply Nat.even_spec in He as [m ->].
  by rewrite (Nat.mul_comm 2 m), Nat.div_mul, Nat.mul_comm by lia.
Qed.

(** X9.  A frame that decodes, arriving while the contexts exist, creates
    one source that joins the active set; the source starts no earlier
    than the current time of the output context and no earlier than the
    cursor, it lasts the byte length of the payload over 48000 seconds,
    and the cursor is left at its end. *)
Theorem frame_scheduled
    (r : Readings) (audioBase64 : list N) (bytes : list byte)
    (buf : AudioBuffer) (st : App) :
  audioContextRef st = true →
  decodeAudio audioBase64 = Some bytes →
  decode_frame audioBase64 = Some buf →
  (Z.of_nat (length bytes) < 4294967296)%Z →
  let st' := onmessage r (audio_message audioBase64) st in
  let n := {| node_buffer := buf; node_when := start_time r (nextStartTimeRef st);
              node_stopped := false |} in
  sources st' = sources st ++ [n]
  ∧ length (sources st) ∈ audioSourcesRef st'
  ∧ out_now r <= node_when n
  ∧ nextStartTimeRef st <= node_when n
  ∧ duration buf == inject_Z (Z.of_nat (length bytes)) / 48000
  ∧ nextStartTimeRef st' = node_when n + duration buf.
Proof.
  intros Hc Hbytes Hbuf Hlen st' n.
  destruct (onmessage_audio r audioBase64 buf st Hc Hbuf) as (_ & Hs & Hn).
  fold st' in Hs, Hn. split; [exact Hs|]. split.
  { unfold st', onmessage.
    destruct (decode_frame_nonempty audioBase64) as (c & rest & ->); [by eexists|].
    cbn [interrupted inlineData audio_message]. rewrite Hc.
    unfold on_audio. rewrite Hbuf. cbn.
    apply elem_of_union_l, elem_of_singleton. done. }
  split. { cbn. unfold start_time. destruct (Qlt_le_dec _ _); lra. }
  split; [apply start_time_ge|]. split; [|exact Hn].
  unfold decode_frame in Hbuf. rewrite Hbytes in Hbuf.
  destruct (decodeAudioData bytes 24000 1) as [e|b] eqn:E; [discriminate|].
  injection Hbuf as ->.
  pose proof (decoded_is_decodable _ _ _ _ E) as Hd.
  rewrite decodable_ok in E by done. rewrite !Nat.div_1_r in E.
  injection E as <-.
  unfold duration. cbn [buf_length sampleRate].
  rewrite int16_elements_length.
  unfold decodable in Hd. rewrite !andb_true_iff in Hd.
  destruct Hd as [[[[[He _] _] _] _] _].
  pose proof (even_half _ He) as Hh.
  assert (Hq : inject_Z (Z.of_nat (length bytes))
               == 2 * inject_Z (Z.of_nat (length bytes / 2))).
  { rewrite <- Hh at 1. rewrite Nat2Z.inj_mul, inject_Z_mult. reflexivity. }
  rewrite Hq. field.
Qed.

Lemma frame_scheduled_witness :
  let st' := onmessage (readings_at 1) (audio_message four_samples)
                       session_start in
  ∃ n, sources st' = [n] ∧ 1 <= node_when n
       ∧ duration (node_buffer n) == 8 / 48000.
Proof.
  intros st'.
  assert (Hb : ∃ bytes, decodeAudio four_samples = Some bytes
                        ∧ length bytes = 8%nat)
    by (eexists; split; vm_compute; reflexivity).
  destruct Hb as (bytes & Hb & Hl).
  assert (Hf : ∃ buf, decode_frame four_samples = Some buf)
    by (eexists; vm_compute; reflexivity).
  destruct Hf as (buf & Hf).
  destruct (frame_scheduled (readings_at 1) four_samples bytes buf
              session_start eq_refl Hb Hf ltac:(rewrite Hl; cbn; lia))
    as (H1 & _ & H3 & _ & H5 & _).
  eexists. split; [exact H1|]. split; [exact H3|].
  cbn [node_buffer]. rewrite H5, Hl. reflexivity.
Defined.

(** *** Runs with no interruption: nothing overlaps *)

Definition finish (s : BufferSourceNode) : Q :=
  node_when s + duration (node_buffer s).

(** No source starts before an earlier one has finished, and the cursor is
    at or after the finish of every source. *)
Record gapless (st : App) : Prop := {
  gl_cursor : ∀ i s, sources st !! i = Some s → finish s <= nextStartTimeRef st;
  gl_order : ∀ i j si sj, (i < j)%nat →
    sources st !! i = Some si → sources st !! j = Some sj →
    finish si <= node_when sj
}.

Definition not_interrupted (e : event) : Prop :=
  match e with
  | Message _ message => interrupted message = false
  | Ended _ _ => True
  end.

Lemma session_start_gapless : gapless session_start.
Proof. split; cbn; intros; done. Qed.

Lemma on_audio_gapless r audioBase64 st :
  gapless st → gapless (on_audio r audioBase64 st).
Proof.
  intros [Hcur Hord]. unfold on_audio.
  pose proof (start_time_ge r (nextStartTimeRef st)) as Hge.
  destruct (decode_frame audioBase64) as [buf|] eqn:Hbuf.
  - destruct (decode_frame_duration _ _ Hbuf) as [_ Hd].
    split; cbn.
    + intros i s Hs. apply lookup_app_Some in Hs as [Hs|[_ Hs]].
      * pose proof (Hcur i s Hs). lra.
      * apply list_lookup_singleton_Some in Hs as [_ <-]. unfold finish. cbn. lra.
    + intros i j si sj Hij Hi Hj.
      apply lookup_app_Some in Hj as [Hj|[Hlen Hj]].
      * apply lookup_app_Some in Hi as [Hi|[Hlen' _]];
          [by eapply Hord|apply lookup_lt_Some in Hj; lia].
      * apply list_lookup_singleton_Some in Hj as [Hj0 <-]. cbn.
        apply lookup_app_Some in Hi as [Hi|[Hlen' _]]; [|lia].
        pose proof (Hcur i si Hi). lra.
  - split; cbn.
    + intros i s Hs. pose proof (Hcur i s Hs). lra.
    + exact Hord.
Qed.

Lemma step_gapless st e : not_interrupted e → gapless st → gapless (step st e).
Proof.
  intros He Hg. destruct e as [r message|r source]; cbn in *.
  - unfold onmessage. rewrite He.
    destruct (inlineData message) as [[|c audioBase64]|]; try done.
    destruct (audioContextRef st); [by apply on_audio_gapless|done].
  - unfold on_ended. destruct Hg as [Hcur Hord].
    destruct (decide _); split; cbn; done.
Qed.

(** X13.  In a run of the callbacks from the start of the session with no
    interruption, whatever the order of frames, failed frames and ['ended']
    events, no source starts before an earlier one has finished, and the
    cursor is never before the finish of a source. *)
Theorem no_overlap_without_interruption (evs : list event) :
  Forall not_interrupted evs →
  let st := run evs session_start in
  (∀ i j si sj, (i < j)%nat →
     sources st !! i = Some si → sources st !! j = Some sj →
     node_when si + duration (node_buffer si) <= node_when sj)
  ∧ (∀ i s, sources st !! i = Some s →
       node_when s + duration (node_buffer s) <= nextStartTimeRef st).
Proof.
  intros Hevs st.
  assert (Hg : gapless st).
  { unfold st. generalize session_start_gapless. generalize session_start.
    induction Hevs as [|e evs He _ IH]; intros st0 Hg0; [done|].
    cbn. apply IH. by apply step_gapless. }
  destruct Hg as [Hcur Hord]. split; [exact Hord|exact Hcur].
Qed.

Lemma no_overlap_without_interruption_witness :
  let st := run [Message (readings_at 1) (audio_message four_samples);
                 Ended (readings_at 2) 0;
                 Message (readings_at 3) (audio_message four_samples)]
                session_start in
  ∃ s0 s1, sources st = [s0; s1]
           ∧ node_when s0 + duration (node_buffer s0) <= node_when s1.
Proof.
  intros st.
  destruct (no_overlap_without_interruption
              [Message (readings_at 1) (audio_message four_samples);
               Ended (readings_at 2) 0;
               Message (readings_at 3) (audio_message four_samples)])
    as [H _]; [repeat constructor|].
  eexists _, _. split; [vm_compute; reflexivity|].
  apply (H 0%nat 1%nat); [lia|reflexivity|reflexivity].
Defined.

(** *** The speaking flag and the active set *)

Record active_set_sound (st : App) : Prop := {
  as_context : audioContextRef st = true;
  as_speaking : isModelSpeaking st = true ↔ audioSourcesRef st ≠ ∅;
  as_live : ∀ id, id ∈ audioSourcesRef st →
    ∃ s, sources st !! id = Some s ∧ node_stopped s = false
}.

Lemma singleton_union_nonempty (x : nat) (X : gset nat) : {[x]} ∪ X ≠ ∅.
Proof.
  intros He. assert (Hin : x ∈ ({[x]} ∪ X : gset nat))
    by (apply elem_of_union_l, elem_of_singleton; done).
  rewrite He in Hin. by apply not_elem_of_empty in Hin.
Qed.

Lemma session_start_sound : active_set_sound session_start.
Proof.
  split; cbn; [done| |].
  - split; [discriminate|]. intros H. by destruct H.
  - intros id Hid. by apply not_elem_of_empty in Hid.
Qed.

Lemma step_sound st e : active_set_sound st → active_set_sound (step st e).
Proof.
  intros [Hc Hsp Hl]. destruct e as [r message|r source]; cbn.
  - unfold onmessage. destruct (interrupted message).
    { unfold on_interrupted. split; cbn; [done| |].
      - split; [discriminate|]. intros H. by destruct H.
      - intros id Hid. by apply not_elem_of_empty in Hid. }
    destruct (inlineData message) as [[|c audioBase64]|]; try (by split).
    rewrite Hc. unfold on_audio.
    destruct (decode_frame (c :: audioBase64)) as [buf|]; [|by split].
    split; cbn; [done| |].
    + split; [intros _; apply singleton_union_nonempty|done].
    + intros id Hid. apply elem_of_union in Hid as [Hid|Hid].
      * apply elem_of_singleton in Hid. subst id. eexists. split.
        -- rewrite lookup_app_r, Nat.sub_diag by lia. reflexivity.
        -- reflexivity.
      * destruct (Hl id Hid) as (s & Hs & Hst). exists s. split; [|done].
        by apply lookup_app_l_Some.
  - unfold on_ended. destruct (decide _) as [Hz|Hnz]; split; cbn; try done.
    + split; [discriminate|]. intros H. exfalso. apply H.
      apply leibniz_equiv, size_empty_inv, Hz.
    + intros id Hid. apply Hl. by apply elem_of_difference in Hid as [? _].
    + assert (Hne : audioSourcesRef st ∖ {[source]} ≠ ∅).
      { intros He. apply Hnz. rewrite He. apply size_empty. }
      split; [done|]. intros _. apply Hsp. intros He. apply Hne.
      rewrite He. apply empty_difference_L.
    + intros id Hid. apply Hl. by apply elem_of_difference in Hid as [? _].
Qed.

Lemma run_sound evs st : active_set_sound st → active_set_sound (run evs st).
Proof.
  revert st. induction evs as [|e evs IH]; intros st H; [done|].
  cbn. apply IH, step_sound, H.
Qed.

(** X14.  In every state reached from the start of the session the
    speaking flag is set exactly when the set of active sources is not
    empty. *)
Theorem speaking_flag_tracks_active_set (evs : list event) :
  let st := run evs session_start in
  isModelSpeaking st = true ↔ audioSourcesRef st ≠ ∅.
Proof.
  intros st. apply (as_speaking st), run_sound, session_start_sound.
Qed.

(** X15.  In every state reached from the start of the session each
    member of the active set is a source that was created and has not been
    stopped: a stopped source is never left in the set. *)
Theorem active_sources_are_live (evs : list event) (id : nat) :
  let st := run evs session_start in
  id ∈ audioSourcesRef st →
  ∃ s, sources st !! id = Some s ∧ node_stopped s = false.
Proof.
  intros st. apply (as_live st), run_sound, session_start_sound.
Qed.

Lemma active_sources_are_live_witness :
  let st := run [Message (readings_at 1) (audio_message four_samples)]
                session_start in
  ∃ s, sources st !! 0%nat = Some s ∧ node_stopped s = false.
Proof.
  intros st.
  apply (active_sources_are_live
           [Message (readings_at 1) (audio_message four_samples)] 0).
  vm_compute. reflexivity.
Defined.

(** *** A source once scheduled *)

Lemma step_keeps_schedule st e id s :
  sources st !! id = Some s →
  ∃ s', sources (step st e) !! id = Some s'
        ∧ node_when s' = node_when s
        ∧ node_buffer s' = node_buffer s
        ∧ (node_stopped s = true → node_stopped s' = true).
Proof.
  intros Hs. destruct e as [r message|r source]; cbn.
  - unfold onmessage. destruct (interrupted message).
    { unfold on_interrupted. cbn. rewrite stop_all_lookup, Hs.
      destruct (decide _); cbn; eexists; (split; [reflexivity|]); cbn; auto. }
    destruct (inlineData message) as [[|c audioBase64]|]; try (by exists s).
    destruct (audioContextRef st); [|by exists s].
    unfold on_audio. destruct (decode_frame _); cbn; exists s; [|done].
    split; [by apply lookup_app_l_Some|done].
  - unfold on_ended. destruct (decide _); cbn; by exists s.
Qed.

(** X16.  Nothing reschedules a source: through any run of the callbacks
    a source keeps the start time and the buffer it was created with, and
    once stopped it stays stopped. *)
Theorem schedule_is_permanent
    (evs : list event) (st : App) (id : nat) (s : BufferSourceNode) :
  sources st !! id = Some s →
  ∃ s', sources (run evs st) !! id = Some s'
        ∧ node_when s' = node_when s
        ∧ node_buffer s' = node_buffer s
        ∧ (node_stopped s = true → node_stopped s' = true).
Proof.
  revert st s. induction evs as [|e evs IH]; intros st s Hs.
  - exists s. auto.
  - cbn. destruct (step_keeps_schedule st e id s Hs) as (s1 & H1 & Hw & Hb & Hst).
    destruct (IH _ _ H1) as (s' & H' & Hw' & Hb' & Hst').
    exists s'. split; [exact H'|]. split; [congruence|]. split; [congruence|auto].
Qed.

Lemma schedule_is_permanent_witness :
  let st := run [Message (readings_at 1) (audio_message four_samples)]
                session_start in
  ∃ s', sources (run [Message (readings_at 2) interruption;
                      Message (readings_at 9) (audio_message four_samples)] st)
          !! 0%nat = Some s'
        ∧ node_when s' = 1 + 0.05.
Proof.
  intros st.
  destruct (schedule_is_permanent
              [Message (readings_at 2) interruption;
               Message (readings_at 9) (audio_message four_samples)]
              st 0
              {| node_buffer :=
                   match decode_frame four_samples with
                   | Some b => b
                   | None => {| numberOfChannels := 0; buf_length := 0;
                                sampleRate := 0; channelData := [] |}
                   end;
                 node_when := 1 + 0.05; node_stopped := false |})
    as (s' & H & Hw & _); [vm_compute; reflexivity|].
  exists s'. split; [exact H|exact Hw].
Defined.

(** *** An ['ended'] event for a source that is not active *)

(** X17.  The ['ended'] listener does not check that its source was still
    active.  For a source outside the active set it changes nothing while
    other sources are active; when the set is empty (as after an
    interruption, whose stopped sources then fire ['ended']) it schedules
    the restore all the same: the gain is set to 0 at the current time and
    ramps to 0.7 in 0.2 s. *)
Theorem ended_of_inactive_source
    (r : Readings) (source : nat) (st : App) (g : AudioParam) :
  systemGainRef st = Some g →
  source ∉ audioSourcesRef st →
  (audioSourcesRef st ≠ ∅ → on_ended r source st = st)
  ∧ (audioSourcesRef st = ∅ →
     ∃ g', systemGainRef (on_ended r source st) = Some g'
           ∧ timeline g'
             = List.filter (before (in_now r)) (timeline g)
               ++ [{| ev_kind := SetValue; ev_value := 0; ev_time := in_now r |};
                   {| ev_kind := LinearRamp; ev_value := 0.7;
                      ev_time := in_now r + 0.2 |}]).
Proof.
  intros Hg Hnot.
  assert (Hsame : audioSourcesRef st ∖ {[source]} = audioSourcesRef st).
  { apply leibniz_equiv. intros x. rewrite elem_of_difference, elem_of_singleton.
    split; [by intros [? _]|]. intros Hx. split; [done|]. by intros ->. }
  unfold on_ended. rewrite Hsame. split.
  - intros Hne. destruct (decide _) as [Hz|_]; [|by destruct st].
    exfalso. apply Hne. apply leibniz_equiv, size_empty_inv, Hz.
  - intros He. rewrite He, size_empty. cbn. rewrite Hg. cbn.
    eexists. split; [reflexivity|]. unfold restore.
    rewrite ramp_after_cancel by lra. reflexivity.
Qed.

Lemma ended_of_inactive_source_witness :
  let st := run [Message (readings_at 1) (audio_message four_samples);
                 Message (readings_at 2) interruption] session_start in
  ∃ g', systemGainRef (on_ended (readings_at 3) 0 st) = Some g'
        ∧ last (timeline g')
          = Some {| ev_kind := LinearRamp; ev_value := 0.7;
                    ev_time := 3 + 0.2 |}.
Proof.
  intros st.
  assert (Hg : ∃ g, systemGainRef st = Some g) by (by eexists).
  destruct Hg as [g Hg].
  destruct (ended_of_inactive_source (readings_at 3) 0 st g Hg) as [_ H].
  - apply not_elem_of_empty.
  - destruct (H eq_refl) as (g' & H1 & H2).
    exists g'. split; [exact H1|]. rewrite H2. by rewrite last_app_cons.
Defined.

End PlaybackMore.

(* ===================================================================== *)
(** ** Teardown: [stopSession]                                            *)
(* ===================================================================== *)

Module Session.
Import Host Codec Float Pcm Playback.
#[local] Open Scope Q_scope.

Inductive SessionStatus := DISCONNECTED | CONNECTING | CONNECTED | ERROR.

(** [artist] and [title] come from the arguments of a tool call and are
    [undefined] ([None]) when the call leaves them out. *)
Record MusicState := {
  artist : option jsstring;
  title : option jsstring;
  isVisible : bool
}.

(** The refs and the pieces of React state that [stopSession] writes,
    around the audio state of the callbacks.  A ref that holds an object
    is [true] when it is not null; [frameIntervalRef] holds the interval
    id. *)
Record Refs := {
  audio : App;
  activeSessionRef : bool;
  frameIntervalRef : option nat;
  screenAudioSourceRef : bool;
  mixerRef : bool;
  status : SessionStatus;
  isMicEnabled : bool;
  isSharingScreen : bool;
  hasSystemAudio : bool;
  musicState : MusicState
}.

(** [if (frameIntervalRef.current)]: null and 0 are falsy. *)
Definition clear_interval (i : option nat) : option nat :=
  match i with
  | Some (S _) => None
  | other => other
  end.

(** The audio refs after [stopSession]: the contexts are closed and, with
    them, the mixer and the gain are dropped; every active source is
    stopped and the set cleared.  [nextStartTimeRef] is not written. *)
Definition stop_audio (a : App) : App :=
  {| audioContextRef := false;
     nextStartTimeRef := nextStartTimeRef a;
     audioSourcesRef := ∅;
     systemGainRef := if audioContextRef a then None else systemGainRef a;
     isModelSpeaking := false;
     sources := stop_all (audioSourcesRef a) (sources a) |}.

Definition stopSession (s : Refs) : Refs :=
  {| audio := stop_audio (audio s);
     activeSessionRef := false;
     frameIntervalRef := clear_interval (frameIntervalRef s);
     screenAudioSourceRef := false;
     mixerRef := if audioContextRef (audio s) then false else mixerRef s;
     status := DISCONNECTED;
     isMicEnabled := false;
     isSharingScreen := false;
     hasSystemAudio := false;
     musicState := {| artist := artist (musicState s);
                      title := title (musicState s);
                      isVisible := false |} |}.

(** The audio refs as [startSession] sets them before it connects: two
    new contexts and a new gain at 0.7.  The cursor and the set of sources
    are not written. *)
Definition start_audio (a : App) : App :=
  {| audioContextRef := true;
     nextStartTimeRef := nextStartTimeRef a;
     audioSourcesRef := audioSourcesRef a;
     systemGainRef := Some {| initial_value := 0.7; timeline := [] |};
     isModelSpeaking := isModelSpeaking a;
     sources := sources a |}.

End Session.

Module SessionProofs.
Import Host Codec Float Pcm Playback PlaybackProofs Session.
#[local] Open Scope Q_scope.

Lemma stop_all_empty nodes : stop_all ∅ nodes = nodes.
Proof. unfold stop_all. apply set_fold_empty. Qed.

(** X18.  [stopSession] can run twice (the close of the session calls it
    again through [onclose]): the second run changes nothing. *)
Theorem stopSession_idempotent (s : Refs) :
  stopSession (stopSession s) = stopSession s.
Proof.
  unfold stopSession, stop_audio. cbn -[stop_all]. rewrite stop_all_empty.
  f_equal. by destruct (frameIntervalRef s) as [[|n]|].
Qed.

(** A state in which the audio is torn down. *)
Record torn_down (a : App) : Prop := {
  td_context : audioContextRef a = false;
  td_set : audioSourcesRef a = ∅;
  td_gain : systemGainRef a = None;
  td_silent : isModelSpeaking a = false
}.

Lemma step_torn_down a e :
  torn_down a →
  torn_down (step a e) ∧ sources (step a e) = sources a.
Proof.
  intros [Hc Hs Hg Hsp]. destruct e as [r message|r source]; cbn.
  - unfold onmessage. destruct (interrupted message).
    + unfold on_interrupted. rewrite Hg, Hs. cbn.
      split; [by split|apply stop_all_empty].
    + destruct (inlineData message) as [[|c audioBase64]|]; try (by repeat split).
      rewrite Hc. by repeat split.
  - unfold on_ended. rewrite Hs, empty_difference_L, size_empty. cbn.
    rewrite Hg. by repeat split.
Qed.

(** X19.  After [stopSession] the callbacks are inert: whatever messages
    and ['ended'] events still arrive, no source is created or changed, the
    active set stays empty, no gain is touched and the speaking flag stays
    off, provided the contexts existed when the session was stopped. *)
Theorem callbacks_inert_after_stop (a : App) (evs : list event) :
  audioContextRef a = true →
  let a' := run evs (stop_audio a) in
  sources a' = sources (stop_audio a)
  ∧ audioSourcesRef a' = ∅
  ∧ systemGainRef a' = None
  ∧ isModelSpeaking a' = false
  ∧ audioContextRef a' = false.
Proof.
  intros Hc a'.
  assert (H0 : torn_down (stop_audio a)).
  { split; cbn; try done. by rewrite Hc. }
  assert (H : torn_down a' ∧ sources a' = sources (stop_audio a)).
  { unfold a'. revert H0. generalize (stop_audio a).
    induction evs as [|e evs IH]; intros b Hb; [done|].
    change (run (e :: evs) b) with (run evs (step b e)).
    destruct (step_torn_down b e Hb) as [Hb' Hs'].
    destruct (IH _ Hb') as [IH1 IH2]. split; [done|congruence]. }
  destruct H as [[? ? ? ?] ?]. auto.
Qed.

Lemma callbacks_inert_after_stop_witness :
  let a := run [Message (readings_at 1) (audio_message four_samples)]
               session_start in
  sources (run [Message (readings_at 2) (audio_message four_samples);
                Ended (readings_at 3) 0] (stop_audio a))
  = sources (stop_audio a).
Proof.
  intros a.
  apply (callbacks_inert_after_stop a
           [Message (readings_at 2) (audio_message four_samples);
            Ended (readings_at 3) 0]).
  reflexivity.
Defined.

(** X20.  The cursor outlives the session: [stopSession] and the next
    [startSession] do not write it, so the first frame of the new session
    that finds the clock of the new output context at or before the old
    cursor is started at the old cursor. *)
Theorem cursor_survives_restart
    (a : App) (r : Readings) (audioBase64 : list N) (buf : AudioBuffer) :
  decode_frame audioBase64 = Some buf →
  out_now r <= nextStartTimeRef a →
  let a' := onmessage r (audio_message audioBase64)
                      (start_audio (stop_audio a)) in
  nextStartTimeRef (start_audio (stop_audio a)) = nextStartTimeRef a
  ∧ ∃ n, last (sources a') = Some n
         ∧ node_buffer n = buf
         ∧ node_when n = nextStartTimeRef a.
Proof.
  intros Hbuf Hnow a'. split; [reflexivity|].
  destruct (onmessage_audio r audioBase64 buf (start_audio (stop_audio a))
              eq_refl Hbuf) as (_ & Hs & _).
  fold a' in Hs. rewrite Hs, last_snoc. eexists. split; [reflexivity|].
  split; [reflexivity|]. cbn. unfold start_time.
  destruct (Qlt_le_dec (nextStartTimeRef a) (out_now r)); [lra|reflexivity].
Qed.

Lemma cursor_survives_restart_witness :
  let a := run [Message (readings_at 60) (audio_message four_samples)]
               session_start in
  ∃ n, last (sources (onmessage (readings_at 0) (audio_message four_samples)
                                (start_audio (stop_audio a)))) = Some n
       ∧ node_when n = nextStartTimeRef a.
Proof.
  intros a.
  assert (Hf : ∃ buf, decode_frame four_samples = Some buf)
    by (eexists; vm_compute; reflexivity).
  destruct Hf as [buf Hf].
  destruct (cursor_survives_restart a (readings_at 0) four_samples buf Hf)
    as [_ (n & H1 & _ & H3)].
  - vm_compute. discriminate.
  - exists n. split; [exact H1|exact H3].
Defined.

End SessionProofs.

(* ===================================================================== *)
(** ** Tool calls: [handleAgentAction]                                    *)
(* ===================================================================== *)

Module Agent.
Import Host Float Session.
#[local] Open Scope Q_scope.

(** The code units of an ASCII literal. *)
Definition chars (s : string) : jsstring :=
  map (λ a, N_of_ascii a) (list_ascii_of_string s).

Record TacticalData := {
  economy : jsstring;
  callout : jsstring;
  enemyIntel : jsstring;
  score : jsstring;
  agent : jsstring;
  analysis : jsstring
}.

(** The arguments of a call, typed as the tool declarations type them; an
    argument that the call leaves out is [None] ([undefined]). *)
Record Args := {
  arg_economy : option jsstring;
  arg_callout : option jsstring;
  arg_enemyIntel : option jsstring;
  arg_score : option jsstring;
  arg_agent : option jsstring;
  arg_analysis : option jsstring;
  arg_pattern : option jsstring;
  arg_learningBoost : option Q;
  arg_artist : option jsstring;
  arg_title : option jsstring;
  arg_x : option Q;
  arg_y : option Q
}.

(** The React state that the tool calls write, with [tacticalDataRef], the
    copy of [tacticalData] that an effect refreshes after each render. *)
Record Hud := {
  tacticalData : TacticalData;
  tacticalDataRef : TacticalData;
  terminalOutput : list jsstring;
  learningScore : Q;
  tacticalPatterns : list (option jsstring);
  music : MusicState;
  cursorPos : float * float
}.

(** [a || b] on strings: [undefined] and the empty string are falsy. *)
Definition or_else (a : option jsstring) (b : jsstring) : jsstring :=
  match a with
  | Some (c :: rest) => c :: rest
  | _ => b
  end.

(** [`${x}`] *)
Definition interpolated (x : option jsstring) : jsstring :=
  match x with
  | Some s => s
  | None => chars "undefined"
  end.

(** [l.slice(-n)] and, for [n <= length l], [l.slice(l.length - n)]. *)
Definition last_n {A} (n : nat) (l : list A) : list A :=
  drop (length l - n) l.

(** [prev => [...prev.slice(-8), line]] *)
Definition log_line (line : jsstring) (out : list jsstring) : list jsstring :=
  last_n 8 out ++ [line].

Definition Math_min (a b : Q) : Q := if Qlt_le_dec b a then b else a.

(** [Number(x)] for a number or [undefined]. *)
Definition Number (x : option Q) : float :=
  match x with
  | Some q => Fin q
  | None => NaN
  end.

Section WithHost.
(** [String.prototype.toUpperCase], left to the host. *)
Variable toUpperCase : jsstring → jsstring.

Definition update_tactical_hud (args : Args) (st : Hud) : jsstring * Hud :=
  let prevData := tacticalDataRef st in
  let prev := tacticalData st in
  let data :=
    {| economy := or_else (arg_economy args) (economy prev);
       callout := or_else (arg_callout args) (callout prev);
       enemyIntel := or_else (arg_enemyIntel args) (enemyIntel prev);
       score := or_else (arg_score args) (score prev);
       agent := or_else (arg_agent args) (agent prev);
       analysis := or_else (arg_analysis args) (analysis prev) |} in
  let out :=
    match arg_enemyIntel args with
    | Some (c :: rest) =>
        if decide (c :: rest = enemyIntel prevData) then terminalOutput st
        else log_line (chars "[TARGET] " ++ toUpperCase (c :: rest))
                      (terminalOutput st)
    | _ => terminalOutput st
    end in
  (chars "HUD Synced.",
   {| tacticalData := data; tacticalDataRef := tacticalDataRef st;
      terminalOutput := out; learningScore := learningScore st;
      tacticalPatterns := tacticalPatterns st; music := music st;
      cursorPos := cursorPos st |}).

Definition log_tactical_pattern (args : Args) (st : Hud) : jsstring * Hud :=
  let newPattern := arg_pattern args in
  let updated := tacticalPatterns st ++ [newPattern] in
  (chars "Pattern saved to long-term memory.",
   {| tacticalData := tacticalData st; tacticalDataRef := tacticalDataRef st;
      terminalOutput :=
        log_line (chars "[MEMORY] LEARNED: " ++ interpolated newPattern)
                 (terminalOutput st);
      learningScore := Math_min (learningScore st + 15) 100;
      tacticalPatterns :=
        if (5 <? length updated)%nat then drop (length updated - 5) updated
        else updated;
      music := music st; cursorPos := cursorPos st |}).

(** [args.learningBoost || 5]: [undefined] and 0 are falsy. *)
Definition boost (args : Args) : Q :=
  match arg_learningBoost args with
  | Some q => if Qeq_bool q 0 then 5 else q
  | None => 5
  end.

Definition neural_adaptation_sync (args : Args) (st : Hud) : jsstring * Hud :=
  (chars "ML Update Logged.",
   {| tacticalData := tacticalData st; tacticalDataRef := tacticalDataRef st;
      terminalOutput :=
        log_line (chars "[Adaptation] Logic refined via gameplay data.")
                 (terminalOutput st);
      learningScore := Math_min (learningScore st + boost args) 100;
      tacticalPatterns := tacticalPatterns st; music := music st;
      cursorPos := cursorPos st |}).

Definition identify_song (args : Args) (st : Hud) : jsstring * Hud :=
  (chars "Song identified and displayed on HUD.",
   {| tacticalData := tacticalData st; tacticalDataRef := tacticalDataRef st;
      terminalOutput :=
        log_line (chars "[AUDIO] MUSIC ID: " ++ interpolated (arg_title args))
                 (terminalOutput st);
      learningScore := learningScore st;
      tacticalPatterns := tacticalPatterns st;
      music := {| artist := arg_artist args; title := arg_title args;
                  isVisible := true |};
      cursorPos := cursorPos st |}).

Definition mouse_move (args : Args) (st : Hud) : jsstring * Hud :=
  (chars "Pointer moved.",
   {| tacticalData := tacticalData st; tacticalDataRef := tacticalDataRef st;
      terminalOutput := terminalOutput st; learningScore := learningScore st;
      tacticalPatterns := tacticalPatterns st; music := music st;
      cursorPos := (Number (arg_x args), Number (arg_y args)) |}).

Definition handleAgentAction (name : jsstring) (args : Args) (st : Hud)
    : jsstring * Hud :=
  if decide (name = chars "update_tactical_hud") then update_tactical_hud args st
  else if decide (name = chars "log_tactical_pattern")
  then log_tactical_pattern args st
  else if decide (name = chars "neural_adaptation_sync")
  then neural_adaptation_sync args st
  else if decide (name = chars "identify_song") then identify_song args st
  else if decide (name = chars "mouse_move") then mouse_move args st
  else (chars "Action completed.", st).

(** What happens to the state between renders: a tool call, the effect
    that copies [tacticalData] into the ref, the timer that hides the
    song. *)
Inductive action :=
| Call (name : jsstring) (args : Args)
| Rendered
| SongTimeout.

Definition apply (st : Hud) (a : action) : Hud :=
  match a with
  | Call name args => (handleAgentAction name args st).2
  | Rendered =>
      {| tacticalData := tacticalData st; tacticalDataRef := tacticalData st;
         terminalOutput := terminalOutput st; learningScore := learningScore st;
         tacticalPatterns := tacticalPatterns st; music := music st;
         cursorPos := cursorPos st |}
  | SongTimeout =>
      {| tacticalData := tacticalData st; tacticalDataRef := tacticalDataRef st;
         terminalOutput := terminalOutput st; learningScore := learningScore st;
         tacticalPatterns := tacticalPatterns st;
         music := {| artist := artist (music st); title := title (music st);
                     isVisible := false |};
         cursorPos := cursorPos st |}
  end.

Definition apply_all (acts : list action) (st : Hud) : Hud :=
  fold_left apply acts st.

(** The patterns that the calls of a run log, in order. *)
Definition logged (acts : list action) : list (option jsstring) :=
  flat_map (λ a, match a with
                 | Call name args =>
                     if decide (name = chars "log_tactical_pattern")
                     then [arg_pattern args] else []
                 | _ => []
                 end) acts.

End WithHost.

(** A call with no argument. *)
Definition no_args : Args :=
  {| arg_economy := None; arg_callout := None; arg_enemyIntel := None;
     arg_score := None; arg_agent := None; arg_analysis := None;
     arg_pattern := None; arg_learningBoost := None; arg_artist := None;
     arg_title := None; arg_x := None; arg_y := None |}.

(** The state of the component when it mounts. *)
Definition initial_data : TacticalData :=
  {| economy := chars "Detecting..."; callout := chars "Scanning...";
     enemyIntel := chars "Clear"; score := chars "0-0";
     agent := chars "Unknown"; analysis := chars "AWAITING DATA..." |}.

Definition initial_hud : Hud :=
  {| tacticalData := initial_data; tacticalDataRef := initial_data;
     terminalOutput := [chars "[System] Radiant Core v9.6";
                        chars "[Audio] Loopback Defense: MAX"];
     learningScore := 15;
     tacticalPatterns := [];
     music := {| artist := Some []; title := Some []; isVisible := false |};
     cursorPos := (Fin 50, Fin 50) |}.

End Agent.

Module AgentProofs.
Import Host Float Session Agent.
#[local] Open Scope Q_scope.

Lemma last_n_length {A} n (l : list A) : (length (last_n n l) ≤ n)%nat.
Proof. unfold last_n. rewrite length_drop. lia. Qed.

Lemma last_n_short {A} n (l : list A) : (length l ≤ n)%nat → last_n n l = l.
Proof.
  intros H. unfold last_n. by replace (length l - n)%nat with 0%nat by lia.
Qed.

(** Keeping the last [n] after each addition keeps the last [n] of all. *)
Lemma last_n_app {A} n (a b : list A) :
  last_n n (last_n n a ++ b) = last_n n (a ++ b).
Proof.
  destruct (decide (length a ≤ n)%nat) as [Hs|Hl].
  - by rewrite (last_n_short n a).
  - unfold last_n. rewrite !length_app, length_drop.
    rewrite !drop_app. rewrite drop_drop. rewrite length_drop.
    f_equal; [f_equal|f_equal]; lia.
Qed.

Lemma log_line_length line out : (length (log_line line out) ≤ 9)%nat.
Proof.
  unfold log_line. rewrite length_app. pose proof (last_n_length 8 out).
  cbn. lia.
Qed.

Lemma Math_min_le a b : Math_min a b <= b.
Proof. unfold Math_min. destruct (Qlt_le_dec b a); lra. Qed.

Lemma or_else_nonempty a b : b ≠ [] → or_else a b ≠ [].
Proof. intros Hb. by destruct a as [[|c rest]|]. Qed.

Section WithHost.
Variable toUpperCase : list N → list N.

Abbreviation apply := (Agent.apply toUpperCase).
Abbreviation apply_all := (Agent.apply_all toUpperCase).

Ltac by_cases :=
  unfold handleAgentAction; repeat case_decide;
  unfold update_tactical_hud, log_tactical_pattern, neural_adaptation_sync,
    identify_song, mouse_move; cbn [snd fst].

Lemma apply_terminal st a :
  (length (terminalOutput st) ≤ 9)%nat →
  (length (terminalOutput (apply st a)) ≤ 9)%nat.
Proof.
  intros H. destruct a as [name args| |]; cbn [Agent.apply]; [|done|done].
  by_cases; cbn [terminalOutput]; try apply log_line_length; try done.
  destruct (arg_enemyIntel args) as [[|c rest]|]; try done.
  case_decide; [done|apply log_line_length].
Qed.

(** X21.  The terminal never holds more than nine lines: every line that
    a tool call logs is added after the last eight. *)
Theorem terminal_stays_short (acts : list action) (st : Hud) :
  (length (terminalOutput st) ≤ 9)%nat →
  (length (terminalOutput (apply_all acts st)) ≤ 9)%nat.
Proof.
  revert st. induction acts as [|a acts IH]; intros st H; [done|].
  cbn. apply IH. by apply apply_terminal.
Qed.

Lemma apply_patterns st a :
  tacticalPatterns (apply st a)
  = match logged [a] with
    | [] => tacticalPatterns st
    | _ => last_n 5 (tacticalPatterns st ++ logged [a])
    end.
Proof.
  destruct a as [name args| |]; cbn [Agent.apply logged flat_map app]; try done.
  unfold handleAgentAction.
  destruct (decide (name = chars "log_tactical_pattern")) as [->|?].
  - rewrite decide_False by (intros E; vm_compute in E; discriminate).
    unfold log_tactical_pattern. cbn [snd tacticalPatterns app]. unfold last_n.
    destruct (Nat.ltb_spec 5 (length (tacticalPatterns st ++ [arg_pattern args])));
      [done|].
    replace (length (tacticalPatterns st ++ [arg_pattern args]) - 5)%nat
      with 0%nat by lia. reflexivity.
  - cbn [app]. repeat case_decide; reflexivity.
Qed.

Lemma logged_cons a acts : logged (a :: acts) = logged [a] ++ logged acts.
Proof. unfold logged. cbn [flat_map]. by rewrite app_nil_r. Qed.

(** X22.  The pattern memory holds the last five patterns logged: after
    any run of tool calls it is the last five entries of what it held
    followed by the patterns of the [log_tactical_pattern] calls, in
    order. *)
Theorem patterns_are_last_five (acts : list action) (st : Hud) :
  (length (tacticalPatterns st) ≤ 5)%nat →
  tacticalPatterns (apply_all acts st)
  = last_n 5 (tacticalPatterns st ++ logged acts).
Proof.
  revert st. induction acts as [|a acts IH]; intros st H.
  - cbn. rewrite app_nil_r. by rewrite last_n_short.
  - change (apply_all (a :: acts) st) with (apply_all acts (apply st a)).
    rewrite logged_cons.
    pose proof (apply_patterns st a) as Ha.
    destruct (logged [a]) as [|p ps] eqn:El.
    + rewrite IH; rewrite Ha; done.
    + rewrite IH.
      * rewrite Ha, last_n_app. by rewrite <- app_assoc.
      * rewrite Ha. apply last_n_length.
Qed.

Lemma apply_score st a :
  learningScore st <= 100 → learningScore (apply st a) <= 100.
Proof.
  intros H. destruct a as [name args| |]; cbn [Agent.apply]; [|done|done].
  by_cases; cbn [learningScore]; try apply Math_min_le; done.
Qed.

(** X23.  The learning score never passes 100, whatever boosts the tool
    calls carry. *)
Theorem score_capped (acts : list action) (st : Hud) :
  learningScore st <= 100 → learningScore (apply_all acts st) <= 100.
Proof.
  revert st. induction acts as [|a acts IH]; intros st H; [done|].
  cbn. apply IH. by apply apply_score.
Qed.

Definition all_filled (d : TacticalData) : Prop :=
  economy d ≠ [] ∧ callout d ≠ [] ∧ enemyIntel d ≠ [] ∧ score d ≠ []
  ∧ agent d ≠ [] ∧ analysis d ≠ [].

Lemma apply_filled st a :
  all_filled (tacticalData st) → all_filled (tacticalData (apply st a)).
Proof.
  intros H. destruct a as [name args| |]; cbn [Agent.apply]; [|done|done].
  by_cases; cbn [tacticalData]; try done.
  destruct H as (H1 & H2 & H3 & H4 & H5 & H6).
  repeat split; cbn; by apply or_else_nonempty.
Qed.

(** X24.  A HUD update never blanks a field: a field changes only to a
    non-empty string, so fields that are filled stay filled through any
    run of tool calls. *)
Theorem hud_fields_stay_filled (acts : list action) (st : Hud) :
  all_filled (tacticalData st) →
  all_filled (tacticalData (apply_all acts st)).
Proof.
  revert st. induction acts as [|a acts IH]; intros st H; [done|].
  cbn. apply IH. by apply apply_filled.
Qed.

End WithHost.

(** Witnesses, with a host that leaves the case of a string as it is. *)

Lemma terminal_stays_short_witness :
  (length (terminalOutput
             (Agent.apply_all (λ s, s)
                [Call (chars "neural_adaptation_sync") no_args;
                 Call (chars "identify_song") no_args] initial_hud)) ≤ 9)%nat.
Proof. apply terminal_stays_short. cbn. lia. Defined.

Lemma patterns_are_last_five_witness :
  tacticalPatterns
    (Agent.apply_all (λ s, s)
       [Call (chars "log_tactical_pattern") no_args] initial_hud)
  = last_n 5 (tacticalPatterns initial_hud
              ++ logged [Call (chars "log_tactical_pattern") no_args]).
Proof. apply patterns_are_last_five. cbn. lia. Defined.

Lemma score_capped_witness :
  learningScore
    (Agent.apply_all (λ s, s)
       [Call (chars "log_tactical_pattern") no_args] initial_hud) <= 100.
Proof. apply score_capped. vm_compute. discriminate. Defined.

Lemma hud_fields_stay_filled_witness :
  all_filled
    (tacticalData
       (Agent.apply_all (λ s, s)
          [Call (chars "update_tactical_hud") no_args] initial_hud)).
Proof. apply hud_fields_stay_filled. repeat split; discriminate. Defined.

End AgentProofs.

(* ===================================================================== *)
(** ** Transcription buffers of [onmessage]                               *)
(* ===================================================================== *)

Module Transcript.
Import Host Agent.

(** [currentInRef] and [currentOutRef]. *)
Record Buffers := {
  currentInRef : jsstring;
  currentOutRef : jsstring
}.

(** The parts of the server content that reach the buffers.  A
    transcription is an object whose [text] may be missing. *)
Record ServerContent := {
  sc_interrupted : bool;
  outputTranscription : option (option jsstring);
  inputTranscription : option (option jsstring);
  turnComplete : bool
}.

(** [ref.current += transcription.text], when the transcription is there:
    a missing text is appended as the word [undefined]. *)
Definition appended (buffer : jsstring) (t : option (option jsstring)) : jsstring :=
  match t with
  | Some text => buffer ++ interpolated text
  | None => buffer
  end.

(** The buffers through one message, handled to the end of its
    transcription part before the next message comes (nothing is awaited
    before that part unless the message carries a tool call).  An
    interrupted message returns before it reaches the buffers; the
    transcript entries that a complete turn pushes to the React state are
    not part of this. *)
Definition on_transcript (b : Buffers) (m : ServerContent) : Buffers :=
  if sc_interrupted m then b
  else
    let out := appended (currentOutRef b) (outputTranscription m) in
    let inp := appended (currentInRef b) (inputTranscription m) in
    if turnComplete m then {| currentInRef := []; currentOutRef := [] |}
    else {| currentInRef := inp; currentOutRef := out |}.

Definition transcribe (ms : list ServerContent) (b : Buffers) : Buffers :=
  fold_left on_transcript ms b.

(** What a message adds to each buffer. *)
Definition out_text (m : ServerContent) : jsstring :=
  if sc_interrupted m then [] else appended [] (outputTranscription m).

Definition in_text (m : ServerContent) : jsstring :=
  if sc_interrupted m then [] else appended [] (inputTranscription m).

(** The message ends a turn. *)
Definition flushes (m : ServerContent) : bool :=
  negb (sc_interrupted m) && turnComplete m.

End Transcript.

Module TranscriptProofs.
Import Host Agent Transcript.

Lemma appended_app buffer t : appended buffer t = buffer ++ appended [] t.
Proof. destruct t; cbn; [done|by rewrite app_nil_r]. Qed.

Lemma transcribe_accumulates ms b :
  Forall (λ m, flushes m = false) ms →
  currentOutRef (transcribe ms b) = currentOutRef b ++ concat (map out_text ms)
  ∧ currentInRef (transcribe ms b) = currentInRef b ++ concat (map in_text ms).
Proof.
  intros H. revert b. induction H as [|m ms Hm _ IH]; intros b.
  - cbn. by rewrite !app_nil_r.
  - change (transcribe (m :: ms) b) with (transcribe ms (on_transcript b m)).
    destruct (IH (on_transcript b m)) as [-> ->].
    cbn [map concat]. unfold on_transcript, out_text, in_text, flushes in *.
    destruct (sc_interrupted m); cbn in *; [done|].
    rewrite Hm. cbn.
    rewrite (appended_app (currentOutRef b)), (appended_app (currentInRef b)).
    by rewrite <- !app_assoc.
Qed.

(** X25.  The two transcription buffers hold what arrived since the turn
    last ended: after a message that completes a turn (and is not
    interrupted) and then messages that complete none, each buffer is the
    concatenation, in order, of the texts of the later messages, where a
    transcription without text counts as the word [undefined] and an
    interrupted message counts for nothing. *)
Theorem buffers_hold_current_turn
    (earlier later : list ServerContent) (m : ServerContent) (b : Buffers) :
  flushes m = true →
  Forall (λ m', flushes m' = false) later →
  currentOutRef (transcribe (earlier ++ m :: later) b)
  = concat (map out_text later)
  ∧ currentInRef (transcribe (earlier ++ m :: later) b)
    = concat (map in_text later).
Proof.
  intros Hm Hl. unfold transcribe. rewrite fold_left_app. cbn [fold_left].
  set (b1 := fold_left on_transcript earlier b).
  assert (E : on_transcript b1 m = {| currentInRef := []; currentOutRef := [] |}).
  { unfold on_transcript, flushes in *.
    destruct (sc_interrupted m); [discriminate|]. cbn in Hm. by rewrite Hm. }
  rewrite E.
  destruct (transcribe_accumulates later
              {| currentInRef := []; currentOutRef := [] |} Hl) as [H1 H2].
  split; [exact H1|exact H2].
Qed.

Lemma buffers_hold_current_turn_witness :
  let turn_end := {| sc_interrupted := false; outputTranscription := None;
                     inputTranscription := None; turnComplete := true |} in
  let said := {| sc_interrupted := false;
                 outputTranscription := Some (Some (chars "hi"));
                 inputTranscription := None; turnComplete := false |} in
  let cut := {| sc_interrupted := true;
                outputTranscription := Some (Some (chars "lost"));
                inputTranscription := None; turnComplete := false |} in
  currentOutRef
    (transcribe ([said] ++ turn_end :: [said; cut; said])
                {| currentInRef := []; currentOutRef := [] |})
  = chars "hihi".
Proof.
  intros turn_end said cut.
  destruct (buffers_hold_current_turn [said] [said; cut; said] turn_end
              {| currentInRef := []; currentOutRef := [] |}) as [H _].
  - reflexivity.
  - repeat constructor.
  - rewrite H. reflexivity.
Defined.

End TranscriptProofs.
